(** * Family tree: tree reconstruction and the member lifecycle controller

    A shallow embedding of [src/components/family/FamilyTree.tsx]: the
    in-memory tree builder ([buildTree], [buildNode]) and the controller
    operations [fetchMembers], [deleteImageFromStorage] and
    [handleDeleteMember], followed by the properties proved about them. *)

From Stdlib Require Import Ascii String.
From stdpp Require Import gmap strings list.

Local Open Scope string_scope.
Local Open Scope list_scope.
Local Open Scope nat_scope.

(** ** JavaScript values of optional string fields *)

(** A field of type [string | null | undefined].  A field that is absent from
    an object reads as [Undefined]. *)
Inductive jsval : Type :=
  | Undefined
  | Null
  | Str (s : string).

#[global] Instance jsval_eq_dec : EqDecision jsval.
Proof. solve_decision. Defined.

(** JavaScript truthiness: [undefined], [null] and the empty string are
    falsy, every other string is truthy. *)
Definition truthy (v : jsval) : Prop :=
  match v with
  | Str s => s ≠ ""
  | _ => False
  end.

#[global] Instance truthy_dec v : Decision (truthy v).
Proof. destruct v; simpl; apply _. Defined.

(** ** Data model *)

(** Modelled from the spec: the [FamilyMember] type declaration
    ([types/family]) is not part of the sources.  The fields are the ones the
    component reads; display attributes play no role in it and are left out. *)
Record FamilyMember : Type := mkFamilyMember {
  id : string;
  parentId : jsval;
  spouseId : jsval;
  imageUrl : jsval;
  createdBy : jsval
}.

#[global] Instance FamilyMember_eq_dec : EqDecision FamilyMember.
Proof. solve_decision. Defined.

(** Modelled from the spec: the [TreeNode] type declaration ([types/family])
    is not part of the sources; its shape is the object literal that
    [buildNode] returns.  [spouse] is [None] for [undefined]. *)
#[local] Unset Elimination Schemes.
Inductive TreeNode : Type := mkTreeNode {
  member : FamilyMember;
  children : list TreeNode;
  spouse : option FamilyMember
}.
#[local] Set Elimination Schemes.

(** Members in primary position, in pre-order. *)
Fixpoint tree_members (t : TreeNode) : list FamilyMember :=
  member t :: concat (map tree_members (children t)).

Definition forest_members (ts : list TreeNode) : list FamilyMember :=
  concat (map tree_members ts).

(** ** The tree builder *)

(** [Array.prototype.map] with a callback that updates the [processed] set
    and may run out of fuel: the set is threaded from one element to the
    next, left to right. *)
Fixpoint map_st {A B : Type}
    (f : A → gset string → option (B * gset string))
    (l : list A) (processed : gset string) : option (list B * gset string) :=
  match l with
  | [] => Some ([], processed)
  | x :: l' =>
      match f x processed with
      | None => None
      | Some (y, processed1) =>
          match map_st f l' processed1 with
          | None => None
          | Some (ys, processed2) => Some (y :: ys, processed2)
          end
      end
  end.

Section buildTree.
Context (members : list FamilyMember).

(** [members.forEach(member => memberMap.set(member.id, member))]: a later
    member with the same id replaces an earlier one. *)
Definition memberMap : gmap string FamilyMember :=
  foldl (λ acc m, <[id m := m]> acc) ∅ members.

(** [member.spouseId ? memberMap.get(member.spouseId) : undefined] *)
Definition resolve_spouse (m : FamilyMember) : option FamilyMember :=
  match spouseId m with
  | Str s => if decide (s = "") then None else memberMap !! s
  | _ => None
  end.

(** The filter of [buildNode], evaluated over the whole array before any
    callback of the following [map] runs. *)
Definition unplaced_children (m : FamilyMember) (processed : gset string)
    : list FamilyMember :=
  filter (λ c, parentId c = Str (id m) ∧ id c ∉ processed) members.

(** [buildNode], with the closure variable [processed] passed in and
    returned.  [fuel] bounds the depth of the recursion; [None] means the
    bound was hit. *)
Fixpoint buildNode (fuel : nat) (m : FamilyMember) (processed : gset string)
    : option (TreeNode * gset string) :=
  match fuel with
  | 0 => None
  | S fuel' =>
      match map_st (λ child p, buildNode fuel' child ({[id child]} ∪ p))
                   (unplaced_children m processed) processed with
      | None => None
      | Some (cs, processed') =>
          Some (mkTreeNode m cs (resolve_spouse m), processed')
      end
  end.

(** The filter of roots, evaluated while [processed] is still empty. *)
Definition root_members : list FamilyMember :=
  filter (λ r, ¬ truthy (parentId r) ∧ id r ∉ (∅ : gset string)) members.

Definition buildTree_fuel (fuel : nat) : option (list TreeNode) :=
  fst <$> map_st (λ rootMember p, buildNode fuel rootMember ({[id rootMember]} ∪ p))
                 root_members ∅.

(** [buildTree]: the recursion is never deeper than the number of members,
    so this fuel is never used up. *)
Definition buildTree : list TreeNode :=
  default [] (buildTree_fuel (S (length members))).
End buildTree.

(** ** The environment of the controller *)

(** Modelled from the spec: the authorization collaborator ([useAuth] of
    [contexts/AuthContext]) is not part of the sources; it exposes the
    identity's [uid] and [isAdmin] flag.  A flag that is missing behaves as
    [false].  [userData] is [None] when the profile is [null] or
    [undefined]; [currentUser] only matters through its presence. *)
Record UserData : Type := mkUserData {
  uid : jsval;
  isAdmin : bool
}.

Record Auth : Type := mkAuth {
  currentUser : option string;
  userData : option UserData
}.

(** A document of the [familyMembers] collection.  [data_id] is an [id]
    field stored inside the document, when there is one: the object spread
    of [fetchMembers] lets it replace the document id. *)
Record DocSnapshot : Type := mkDoc {
  doc_id : string;
  data_id : option string;
  data_parentId : jsval;
  data_spouseId : jsval;
  data_imageUrl : jsval;
  data_createdBy : jsval
}.

(** [{ id: doc.id, ...doc.data() }] *)
Definition member_of_doc (d : DocSnapshot) : FamilyMember :=
  {| id := default (doc_id d) (data_id d);
     parentId := data_parentId d;
     spouseId := data_spouseId d;
     imageUrl := data_imageUrl d;
     createdBy := data_createdBy d |}.

(** Calls to the document store and to the asset store, as a trace. *)
Inductive Call : Type :=
  | GetDocs
  | DeleteObject (path : string)
  | DeleteDoc (docId : string).

#[global] Instance Call_eq_dec : EqDecision Call.
Proof. solve_decision. Defined.

(** The callback registered by [handleDeleteMember] with [setTimeout]. *)
Inductive Timer : Type :=
  | RefetchAfterDelete.

(** React state of the component. *)
Record Component : Type := mkComponent {
  members : list FamilyMember;
  selectedMember : option FamilyMember;
  loading : bool;
  deletingMember : option string;
  deleteSuccess : bool
}.

(** What the browser shows or keeps: [alert] notifications, [console.error]
    lines (message and error), and pending timers with their delay. *)
Record Browser : Type := mkBrowser {
  alerts : list string;
  console : list (string * string);
  timers : list (Timer * nat)
}.

(** The remote stores: the documents of [familyMembers] in the order a query
    returns them, the object paths of the asset store, and the calls
    received so far. *)
Record Backend : Type := mkBackend {
  familyMembers : list DocSnapshot;
  storage : list string;
  calls : list Call
}.

Record World : Type := mkWorld {
  ui : Component;
  browser : Browser;
  backend : Backend
}.

(** Which calls fail, and with what error: chosen by the environment. *)
Record Faults : Type := mkFaults {
  getDocs_error : option string;
  deleteObject_error : string → option string;
  deleteDoc_error : string → option string
}.

(** Functions of the JavaScript runtime used by [deleteImageFromStorage]:
    [new URL(s).pathname] and [decodeURIComponent], each [None] when it
    throws. *)
Record Runtime : Type := mkRuntime {
  URL_pathname : string → option string;
  decodeURIComponent : string → option string
}.

(** ** The monad of the asynchronous handlers: state and exceptions *)

Inductive Res (A : Type) : Type :=
  | Ret (a : A)
  | Throw (e : string).
Arguments Ret {A} a.
Arguments Throw {A} e.

Definition M (A : Type) : Type := World → Res A * World.

#[global] Instance M_ret : MRet M := λ A a w, (Ret a, w).
#[global] Instance M_bind : MBind M := λ A B f c w,
  match c w with
  | (Ret a, w') => f a w'
  | (Throw e, w') => (Throw e, w')
  end.

Definition throw {A : Type} (e : string) : M A := λ w, (Throw e, w).

(** [try { body } catch (e) { handler(e) }] *)
Definition try_catch {A : Type} (body : M A) (handler : string → M A) : M A :=
  λ w, match body w with
       | (Ret a, w') => (Ret a, w')
       | (Throw e, w') => handler e w'
       end.

(** [try { body } finally { fin }] *)
Definition try_finally {A : Type} (body : M A) (fin : M unit) : M A :=
  λ w, match body w with
       | (r, w') =>
           match fin w' with
           | (Ret _, w'') => (r, w'')
           | (Throw e, w'') => (Throw e, w'')
           end
       end.

Definition modify (f : World → World) : M unit := λ w, (Ret tt, f w).
Definition gets {A : Type} (f : World → A) : M A := λ w, (Ret (f w), w).

Definition with_ui (f : Component → Component) (w : World) : World :=
  mkWorld (f (ui w)) (browser w) (backend w).
Definition with_browser (f : Browser → Browser) (w : World) : World :=
  mkWorld (ui w) (f (browser w)) (backend w).
Definition with_backend (f : Backend → Backend) (w : World) : World :=
  mkWorld (ui w) (browser w) (f (backend w)).

Definition setMembers (v : list FamilyMember) : M unit :=
  modify (with_ui (λ c, mkComponent v (selectedMember c) (loading c)
                                    (deletingMember c) (deleteSuccess c))).
Definition setSelectedMember (v : option FamilyMember) : M unit :=
  modify (with_ui (λ c, mkComponent (members c) v (loading c)
                                    (deletingMember c) (deleteSuccess c))).
Definition setLoading (v : bool) : M unit :=
  modify (with_ui (λ c, mkComponent (members c) (selectedMember c) v
                                    (deletingMember c) (deleteSuccess c))).
Definition setDeletingMember (v : option string) : M unit :=
  modify (with_ui (λ c, mkComponent (members c) (selectedMember c) (loading c)
                                    v (deleteSuccess c))).
Definition setDeleteSuccess (v : bool) : M unit :=
  modify (with_ui (λ c, mkComponent (members c) (selectedMember c) (loading c)
                                    (deletingMember c) v)).

Definition alert (msg : string) : M unit :=
  modify (with_browser (λ b, mkBrowser (alerts b ++ [msg]) (console b) (timers b))).
Definition console_error (msg err : string) : M unit :=
  modify (with_browser (λ b, mkBrowser (alerts b) (console b ++ [(msg, err)]) (timers b))).
Definition setTimeout (t : Timer) (delay : nat) : M unit :=
  modify (with_browser (λ b, mkBrowser (alerts b) (console b) (timers b ++ [(t, delay)]))).

Definition record_call (c : Call) : M unit :=
  modify (with_backend (λ b, mkBackend (familyMembers b) (storage b) (calls b ++ [c]))).

(** ** String functions of the runtime that are modelled directly *)

(** [s.includes(sub)] *)
Fixpoint includes (sub s : string) : bool :=
  String.prefix sub s ||
  match s with
  | EmptyString => false
  | String _ s' => includes sub s'
  end.

(** Line terminators, which [.] of a regular expression does not match.
    Strings are sequences of bytes here: line feed and carriage return are
    covered, the separators U+2028 and U+2029 are not, so the group can run
    over more text than in the runtime, never over less. *)
Definition line_terminator (c : ascii) : bool :=
  bool_decide (c = "010"%char) || bool_decide (c = "013"%char).

(** The longest prefix that [.+] can run over. *)
Fixpoint dot_run (s : string) : string :=
  match s with
  | EmptyString => EmptyString
  | String c s' => if line_terminator c then EmptyString else String c (dot_run s')
  end.

(** The text before the last ["?"] of [s], when [s] has one. *)
Fixpoint before_last_question (s : string) : option string :=
  match s with
  | EmptyString => None
  | String c s' =>
      match before_last_question s' with
      | Some p => Some (String c p)
      | None => if bool_decide (c = "?"%char) then Some EmptyString else None
      end
  end.

(** [(.+)\?] anchored at the start of [s]: the greedy group stops before the
    last ["?"] it can reach and must not be empty. *)
Definition group_then_question (s : string) : option string :=
  match before_last_question (dot_run s) with
  | Some (String c p) => Some (String c p)
  | _ => None
  end.

Definition drop3 (s : string) : string :=
  match s with
  | String _ (String _ (String _ r)) => r
  | _ => EmptyString
  end.

(** [s.match(/\/o\/(.+)\?/)], reduced to its capture group [pathMatch[1]]:
    the leftmost position where the whole pattern matches wins. *)
Fixpoint match_o_path (s : string) : option string :=
  match (if String.prefix "/o/" s then group_then_question (drop3 s) else None) with
  | Some g => Some g
  | None =>
      match s with
      | EmptyString => None
      | String _ s' => match_o_path s'
      end
  end.

(** ** The controller *)

Section controller.
Context (rt : Runtime) (faults : Faults) (auth : Auth).

(** [getDocs(query(collection(db, 'familyMembers')))] *)
Definition getDocs : M (list DocSnapshot) :=
  record_call GetDocs;;
  match getDocs_error faults with
  | Some e => throw e
  | None => gets (λ w, familyMembers (backend w))
  end.

(** [deleteDoc(doc(db, 'familyMembers', docId))] *)
Definition deleteDoc (docId : string) : M unit :=
  record_call (DeleteDoc docId);;
  match deleteDoc_error faults docId with
  | Some e => throw e
  | None =>
      modify (with_backend (λ b,
        mkBackend (filter (λ d, doc_id d ≠ docId) (familyMembers b))
                  (storage b) (calls b)))
  end.

(** [deleteObject(ref(storage, path))]: deleting an object that does not
    exist is an error of the asset store. *)
Definition deleteObject (path : string) : M unit :=
  record_call (DeleteObject path);;
  match deleteObject_error faults path with
  | Some e => throw e
  | None =>
      objects ← gets (λ w, storage (backend w));
      if decide (path ∈ objects) then
        modify (with_backend (λ b,
          mkBackend (familyMembers b) (filter (λ p, p ≠ path) (storage b)) (calls b)))
      else throw "storage/object-not-found"
  end.

Definition fetchMembers : M unit :=
  match currentUser auth with
  | None => setLoading false
  | Some _ =>
      try_finally
        (try_catch
           (querySnapshot ← getDocs;
            setMembers (member_of_doc <$> querySnapshot))
           (λ error, console_error "Error fetching family members:" error))
        (setLoading false)
  end.

Definition deleteImageFromStorage (imageUrl : string) : M unit :=
  if bool_decide (imageUrl = "") || negb (includes "firebase" imageUrl)
  then mret tt
  else
    try_catch
      (match URL_pathname rt imageUrl with
       | None => throw "TypeError: Invalid URL"
       | Some pathname =>
           match match_o_path pathname with
           | Some group1 =>
               match decodeURIComponent rt group1 with
               | None => throw "URIError: URI malformed"
               | Some imagePath => deleteObject imagePath
               end
           | None => mret tt
           end
       end)
      (λ error, console_error "Error deleting image from storage:" error).

(** [userData?.isAdmin || userData?.uid === memberToDelete.createdBy] *)
Definition canDelete (memberToDelete : FamilyMember) : bool :=
  from_option isAdmin false (userData auth)
  || bool_decide (from_option uid Undefined (userData auth) = createdBy memberToDelete).

(** [members.some(m => m.parentId === memberId)] *)
Definition hasChildren (ms : list FamilyMember) (memberId : string) : bool :=
  bool_decide (Exists (λ m, parentId m = Str memberId) ms).

Definition permission_denied_msg : string :=
  "You do not have permission to delete this member.".
Definition has_children_msg : string :=
  "Cannot delete this member as they have children in the family tree. Please remove or reassign their children first.".
Definition delete_failed_msg : string :=
  "Failed to delete family member. Please try again.".

(** The part of [handleDeleteMember] after its two checks: from
    [setDeletingMember(memberId)] to the end of the [finally] block. *)
Definition delete_effects (ms : list FamilyMember) (memberToDelete : FamilyMember)
    (memberId : string) : M unit :=
  setDeletingMember (Some memberId);;
  try_finally
    (try_catch
       ((match imageUrl memberToDelete with
         | Str url => if decide (url = "") then mret tt else deleteImageFromStorage url
         | _ => mret tt
         end);;
        (if decide (truthy (spouseId memberToDelete)) then
           match List.find (λ m, bool_decide (Str (id m) = spouseId memberToDelete)) ms with
           | Some spouse => mret tt
           | None => mret tt
           end
         else mret tt);;
        deleteDoc memberId;;
        setDeleteSuccess true;;
        setSelectedMember None;;
        setTimeout RefetchAfterDelete 1500%nat)
       (λ error,
          console_error "Error deleting family member:" error;;
          alert delete_failed_msg))
    (setDeletingMember None).

(** The part of [handleDeleteMember] after the authorization check. *)
Definition delete_authorized (ms : list FamilyMember) (memberToDelete : FamilyMember)
    (memberId : string) : M unit :=
  if hasChildren ms memberId then alert has_children_msg
  else delete_effects ms memberToDelete memberId.

Definition handleDeleteMember (memberId : string) : M unit :=
  ms ← gets (λ w, members (ui w));
  match List.find (λ m, bool_decide (id m = memberId)) ms with
  | None => mret tt
  | Some memberToDelete =>
      if negb (canDelete memberToDelete) then alert permission_denied_msg
      else delete_authorized ms memberToDelete memberId
  end.

(** The callback of the timer: [await fetchMembers(); setDeleteSuccess(false)]. *)
Definition run_timer (t : Timer) : M unit :=
  match t with
  | RefetchAfterDelete => fetchMembers;; setDeleteSuccess false
  end.
End controller.

(** The authorization rule in the words of the specification: the acting
    identity is flagged as administrator, or its uid equals the [createdBy]
    of the target member.  The uid of an absent profile is absent. *)
Definition spec_authorized (auth : Auth) (target : FamilyMember) : Prop :=
  (∃ u, userData auth = Some u ∧ isAdmin u = true)
  ∨ from_option uid Undefined (userData auth) = createdBy target.

(** ** A runtime to evaluate examples with

    [sample_pathname] reads absolute URLs of the form
    [scheme://authority/path?query#fragment] and returns the path, which ends
    before the first ["?"] or ["#"]; anything else is rejected as an invalid
    URL.  [percent_decode] replaces each [%XX] by the byte it denotes and
    rejects a ["%"] that is not followed by two hexadecimal digits.

    Both are narrower than the runtime they stand for: URLs without
    ["://"], which the runtime parses, are rejected, and escapes that are
    not valid UTF-8, which the runtime rejects, are decoded.  They are used
    to evaluate examples at [photo_url] only; the general statements
    quantify over the [Runtime]. *)

Fixpoint after_scheme (s : string) : option string :=
  if String.prefix "://" s then Some (drop3 s)
  else match s with
       | EmptyString => None
       | String _ s' => after_scheme s'
       end.

Definition path_end (c : ascii) : bool :=
  bool_decide (c = "?"%char) || bool_decide (c = "#"%char).

Fixpoint skip_authority (s : string) : string :=
  match s with
  | EmptyString => EmptyString
  | String c s' =>
      if bool_decide (c = "/"%char) || path_end c then s else skip_authority s'
  end.

Fixpoint take_path (s : string) : string :=
  match s with
  | EmptyString => EmptyString
  | String c s' => if path_end c then EmptyString else String c (take_path s')
  end.

Definition sample_pathname (s : string) : option string :=
  match after_scheme s with
  | None => None
  | Some r =>
      match take_path (skip_authority r) with
      | EmptyString => Some "/"
      | p => Some p
      end
  end.

Definition hex_digit (c : ascii) : option nat :=
  let n := nat_of_ascii c in
  (if bool_decide (48 ≤ n ≤ 57) then Some (n - 48)
   else if bool_decide (65 ≤ n ≤ 70) then Some (n - 55)
   else if bool_decide (97 ≤ n ≤ 102) then Some (n - 87)
   else None)%nat.

Fixpoint percent_decode (s : string) : option string :=
  match s with
  | EmptyString => Some EmptyString
  | String c r =>
      if bool_decide (c = "%"%char) then
        match r with
        | String a (String b r') =>
            match hex_digit a, hex_digit b with
            | Some x, Some y =>
                String (ascii_of_nat (16 * x + y)%nat) <$> percent_decode r'
            | _, _ => None
            end
        | _ => None
        end
      else String c <$> percent_decode r
  end.

Definition sample_runtime : Runtime := mkRuntime sample_pathname percent_decode.

Definition no_faults : Faults := mkFaults None (λ _, None) (λ _, None).

(** A world whose in-memory collection is the result of a fetch of [docs]. *)
Definition world_of (docs : list DocSnapshot) (objects : list string) : World :=
  mkWorld (mkComponent (member_of_doc <$> docs) None false None false)
          (mkBrowser [] [] []) (mkBackend docs objects []).

(** The scenario of the specification for the tree builder. *)
Definition mem (i : string) (p s : jsval) : FamilyMember :=
  mkFamilyMember i p s Undefined Undefined.

Definition scenario : list FamilyMember :=
  [ mem "A" Null Undefined; mem "B" (Str "A") Undefined;
    mem "C" (Str "A") (Str "D"); mem "D" Null Undefined ].

(** A member with a picture in the asset store. *)
Definition photo_url : string :=
  "https://firebasestorage.googleapis.com/v0/b/app/o/images%2Fann.jpg?alt=media".

Definition ann_doc : DocSnapshot :=
  mkDoc "ann" None Null Undefined (Str photo_url) (Str "u1").

Definition admin : Auth := mkAuth (Some "u0") (Some (mkUserData (Str "u0") true)).

(** An identity that is neither administrator nor creator of any record. *)
Definition stranger : Auth := mkAuth (Some "u2") (Some (mkUserData (Str "u2") false)).

(** Two spouses: Bea's record points at Ann's. *)
Definition bea_doc : DocSnapshot :=
  mkDoc "bea" None Null (Str "ann") Undefined (Str "u1").
Definition ann_married_doc : DocSnapshot :=
  mkDoc "ann" None Null (Str "bea") Undefined (Str "u1").

(** A record without [createdBy]. *)
Definition orphan_doc : DocSnapshot :=
  mkDoc "zed" None Null Undefined Undefined Undefined.

(** A member whose parent is not in the collection. *)
Definition dangling : list FamilyMember := [mem "B" (Str "A") Undefined].

(** Two members that name each other as parent. *)
Definition mutual : list FamilyMember :=
  [mem "X" (Str "Y") Undefined; mem "Y" (Str "X") Undefined].

(** ** The rest of the component *)

(** Every node of a tree, in pre-order. *)
Fixpoint tree_nodes (t : TreeNode) : list TreeNode :=
  t :: concat (map tree_nodes (children t)).

Definition forest_nodes (ts : list TreeNode) : list TreeNode :=
  concat (map tree_nodes ts).

(** The state of the two editing surfaces, kept beside [Component]. *)
Record Forms : Type := mkForms {
  showAddForm : bool;
  editingMember : option FamilyMember
}.

(** The values the component starts with ([useState]). *)
Definition initial_component : Component := mkComponent [] None true None false.
Definition initial_forms : Forms := mkForms false None.

(** The effect that runs when [currentUser] changes. *)
Definition effect_currentUser (faults : Faults) (auth : Auth) : M unit :=
  match currentUser auth with
  | Some _ => fetchMembers faults auth
  | None => setLoading false
  end.

(** [handleFormSuccess]: [await fetchMembers()], then both editing surfaces
    are closed. *)
Definition handleFormSuccess (faults : Faults) (auth : Auth) (w : World) (f : Forms)
    : Res unit * World * Forms :=
  match fetchMembers faults auth w with
  | (Ret _, w') => (Ret tt, w', mkForms false None)
  | (Throw e, w') => (Throw e, w', f)
  end.

(** What [renderTreeNode] draws for a node: the card of the member with its
    [isRoot] flag, the card of the spouse when there is one, and below them
    the drawings of the children, in order.  Styling is left out. *)
#[local] Unset Elimination Schemes.
Inductive View : Type := mkView {
  card : FamilyMember;
  isRoot : bool;
  spouseCard : option FamilyMember;
  subviews : list View
}.
#[local] Set Elimination Schemes.

Fixpoint renderTreeNode (node : TreeNode) (level : nat) : View :=
  mkView (member node) (bool_decide (level = 0)) (spouse node)
         (map (λ child, renderTreeNode child (S level)) (children node)).

(** The cards of a drawing, members and spouses alike, in the order they
    are drawn. *)
Fixpoint view_cards (v : View) : list FamilyMember :=
  card v :: option_list (spouseCard v) ++ concat (map view_cards (subviews v)).

(** The drawings strictly below the top of a drawing. *)
Fixpoint view_below (v : View) : list View :=
  concat (map (λ u, u :: view_below u) (subviews v)).

(** What the component returns.  The overlays and placeholders come first,
    in the order of the source; the page carries the tree or the empty
    state, the detail modal of [selectedMember], and the form with the
    member it edits when [showAddForm] or [editingMember] is set. *)
Inductive Body : Type :=
  | NoMembersYet
  | Forest (views : list View).

Inductive Screen : Type :=
  | MemberDeleted
  | DeletingMember
  | LoadingTree
  | PleaseLogIn
  | TreePage (body : Body) (modal : option FamilyMember)
             (form : option (option FamilyMember)).

Definition render (auth : Auth) (c : Component) (f : Forms) : Screen :=
  if deleteSuccess c then MemberDeleted
  else if match deletingMember c with
          | Some s => bool_decide (s ≠ "")
          | None => false
          end then DeletingMember
  else if loading c then LoadingTree
  else match currentUser auth with
       | None => PleaseLogIn
       | Some _ =>
           let treeRoots := buildTree (members c) in
           TreePage
             (if bool_decide (length treeRoots = 0) then NoMembersYet
              else Forest (map (λ root, renderTreeNode root 0) treeRoots))
             (selectedMember c)
             (if showAddForm f || bool_decide (is_Some (editingMember f))
              then Some (editingMember f) else None)
  end.

(** [processed] is closed under parents: with a member it holds the
    members that member names as parent. *)
Definition parents_in (ms : list FamilyMember) (p : gset string) : Prop :=
  ∀ c q, c ∈ ms → q ∈ ms → parentId c = Str (id q) → id c ∈ p → id q ∈ p.

(** A document that carries the fields of a member under its own id. *)
Definition doc_of_member (m : FamilyMember) : DocSnapshot :=
  mkDoc (id m) None (parentId m) (spouseId m) (imageUrl m) (createdBy m).

(** A store that refuses every request. *)
Definition store_down : Faults :=
  mkFaults (Some "unavailable") (λ _, Some "unavailable") (λ _, Some "unavailable").

(** A document whose data carries an [id] field that is not its own id. *)
Definition shadowed_doc : DocSnapshot :=
  mkDoc "doc7" (Some "m7") Null Undefined Undefined (Str "u0").

(** ** Notions used to state the properties *)

(** What holds of a node: its member belongs to the collection, its spouse
    is the one [resolve_spouse] finds, and its children are members of the
    collection that name it as parent, in the order of the collection. *)
Definition node_linked (ms : list FamilyMember) (n : TreeNode) : Prop :=
  member n ∈ ms
  ∧ spouse n = resolve_spouse ms (member n)
  ∧ Forall (λ c, member c ∈ ms ∧ parentId (member c) = Str (id (member n))) (children n)
  ∧ (member <$> children n) `sublist_of` ms.


(** A node has all its children: they are the members that name it as
    parent, in the order of the collection. *)
Definition all_children (ms : list FamilyMember) (n : TreeNode) : Prop :=
  member <$> children n = filter (λ c, parentId c = Str (id (member n))) ms.

(** The number of levels of a tree. *)
Fixpoint tree_depth (t : TreeNode) : nat :=
  S (max_list (map tree_depth (children t))).

(** A store that deletes but cannot be queried. *)
Definition query_down : Faults := mkFaults (Some "unavailable") (λ _, None) (λ _, None).

(** [c] occurs in [s]. *)
Fixpoint occurs (c : ascii) (s : string) : Prop :=
  match s with
  | EmptyString => False
  | String c' s' => c' = c ∨ occurs c s'
  end.

(** The ids of a list of members. *)
Definition idset (l : list FamilyMember) : gset string := list_to_set (id <$> l).

(** [m] is anchored when following [parentId] from it leads, through members
    of the collection, to a member without parent. *)
Inductive anchored (ms : list FamilyMember) : FamilyMember → Prop :=
  | anchored_root m :
      m ∈ ms → ¬ truthy (parentId m) → anchored ms m
  | anchored_child m p :
      m ∈ ms → anchored ms p → parentId m = Str (id p) → anchored ms m.

(** What a loop of the builder over the members [l] achieves, from the set
    [p] to the set [p'], when it returns the trees [ts]. *)
Record forest_ok (ms l : list FamilyMember) (p : gset string)
    (ts : list TreeNode) (p' : gset string) : Prop := mk_forest_ok {
  ok_roots : member <$> ts = l;
  ok_elem : ∀ d, d ∈ forest_members ts → d ∈ ms;
  ok_processed : p' = p ∪ idset (forest_members ts);
  ok_NoDup : NoDup (id <$> forest_members ts);
  ok_fresh : ∀ d, d ∈ forest_members ts → id d ∉ p;
  ok_parent : ∀ d, d ∈ forest_members ts →
                d ∈ l ∨ ∃ q, q ∈ forest_members ts ∧ parentId d = Str (id q);
  ok_closed : ∀ q c, q ∈ forest_members ts → c ∈ ms →
                parentId c = Str (id q) → id c ∈ p'
}.

(** Unfolding of the monad and of the state updates. *)
Ltac unfold_m :=
  unfold mbind, mret, M_bind, M_ret, try_catch, try_finally, throw, modify, gets,
    setMembers, setSelectedMember, setLoading, setDeletingMember, setDeleteSuccess,
    alert, console_error, setTimeout, record_call in *.

(** * Properties *)

Example sample_pathname_photo :
  sample_pathname photo_url = Some "/v0/b/app/o/images%2Fann.jpg".
Proof. reflexivity. Qed.

Example match_o_path_on_href :
  match_o_path photo_url = Some "images%2Fann.jpg".
Proof. reflexivity. Qed.

Example percent_decode_photo :
  percent_decode "images%2Fann.jpg" = Some "images/ann.jpg".
Proof. reflexivity. Qed.

(** ** The controller: fetch *)

Lemma getDocs_failure faults e w :
  getDocs_error faults = Some e →
  getDocs faults w =
    (Throw e, with_backend (λ b, mkBackend (familyMembers b) (storage b) (calls b ++ [GetDocs])) w).
Proof. intros He. unfold getDocs. unfold_m. simpl. rewrite He. reflexivity. Qed.

(** No exception leaves [fetchMembers]. *)
Lemma fetchMembers_returns faults auth w :
  fst (fetchMembers faults auth w) = Ret tt.
Proof.
  unfold fetchMembers, getDocs. unfold_m.
  destruct (currentUser auth); simpl; [|done].
  destruct (getDocs_error faults); simpl; done.
Qed.

(** C3, as the code has it: when the query fails, [fetchMembers] logs the
    error, clears the loading flag and returns normally; the in-memory
    collection is the one it was before the fetch, whatever that was. *)
Theorem fetchMembers_failure_keeps_members faults auth w u e :
  currentUser auth = Some u →
  getDocs_error faults = Some e →
  fetchMembers faults auth w =
    (Ret tt,
     mkWorld
       (mkComponent (members (ui w)) (selectedMember (ui w)) false
                    (deletingMember (ui w)) (deleteSuccess (ui w)))
       (mkBrowser (alerts (browser w))
                  (console (browser w) ++ [("Error fetching family members:", e)])
                  (timers (browser w)))
       (mkBackend (familyMembers (backend w)) (storage (backend w))
                  (calls (backend w) ++ [GetDocs]))).
Proof.
  intros Hu He. unfold fetchMembers. rewrite Hu.
  unfold try_finally, try_catch. unfold mbind at 1. unfold M_bind.
  rewrite (getDocs_failure _ _ _ He). reflexivity.
Qed.

Lemma fetchMembers_failure_keeps_members_witness :
  fetchMembers (mkFaults (Some "unavailable") (λ _, None) (λ _, None)) admin
               (world_of [ann_doc] []) =
    (Ret tt,
     mkWorld (mkComponent [member_of_doc ann_doc] None false None false)
             (mkBrowser [] [("Error fetching family members:", "unavailable")] [])
             (mkBackend [ann_doc] [] [GetDocs])).
Proof.
  exact (fetchMembers_failure_keeps_members
           (mkFaults (Some "unavailable") (λ _, None) (λ _, None)) admin
           (world_of [ann_doc] []) "u0" "unavailable" eq_refl eq_refl).
Defined.

(** C3 fails as stated: a failed fetch over a non-empty in-memory collection
    leaves that collection visible. *)
Lemma fetchMembers_failure_not_empty :
  getDocs_error (mkFaults (Some "unavailable") (λ _, None) (λ _, None)) = Some "unavailable"
  ∧ members (ui (snd (fetchMembers (mkFaults (Some "unavailable") (λ _, None) (λ _, None))
                                   admin (world_of [ann_doc] []))))
    = [member_of_doc ann_doc]
  ∧ members (ui (snd (fetchMembers (mkFaults (Some "unavailable") (λ _, None) (λ _, None))
                                   admin (world_of [ann_doc] []))))
    ≠ [].
Proof. split; [reflexivity|]. split; [reflexivity|discriminate]. Qed.

(** ** The controller: asset cleanup *)

Lemma dot_run_occurs c s : occurs c (dot_run s) → occurs c s.
Proof.
  induction s as [|c' s IH]; simpl; [done|].
  destruct (line_terminator c'); simpl; [done|]. intros [?|?]; auto.
Qed.

Lemma before_last_question_occurs s p :
  before_last_question s = Some p → occurs "?"%char s.
Proof.
  revert p. induction s as [|c s IH]; simpl; intros p; [done|].
  destruct (before_last_question s) as [q|]; [intros _; right; eauto|].
  case_bool_decide; [left; done|done].
Qed.

Lemma drop3_occurs c s : occurs c (drop3 s) → occurs c s.
Proof.
  destruct s as [|c1 [|c2 [|c3 s]]]; simpl; try done. auto.
Qed.

(** The pattern only matches a text that has a ["?"] in it. *)
Lemma match_o_path_occurs s g : match_o_path s = Some g → occurs "?"%char s.
Proof.
  induction s as [|c s IH].
  - simpl. done.
  - cbn [match_o_path].
    destruct (String.prefix "/o/" (String c s)) eqn:Hp.
    + unfold group_then_question.
      destruct (before_last_question (dot_run (drop3 (String c s)))) as [[|c' p]|] eqn:Hq.
      * intros H. right. auto.
      * intros _. apply drop3_occurs, dot_run_occurs.
        eapply before_last_question_occurs; eauto.
      * intros H. right. auto.
    + intros H. right. auto.
Qed.

(** [deleteImageFromStorage] never throws, and all it can do to the stores
    is one [deleteObject]. *)
Lemma deleteImageFromStorage_effect rt faults url w :
  ∃ w', deleteImageFromStorage rt faults url w = (Ret tt, w')
    ∧ ui w' = ui w
    ∧ alerts (browser w') = alerts (browser w)
    ∧ timers (browser w') = timers (browser w)
    ∧ familyMembers (backend w') = familyMembers (backend w)
    ∧ ∃ l, calls (backend w') = calls (backend w) ++ l
           ∧ Forall (λ c, ∃ p, c = DeleteObject p) l.
Proof.
  unfold deleteImageFromStorage.
  assert (∀ A (l : list A), l = l ++ []) as Hnil by (intros; by rewrite app_nil_r).
  destruct (bool_decide (url = "") || negb (includes "firebase" url)).
  { exists w. repeat split; try done. exists []. auto. }
  unfold deleteObject. unfold_m.
  destruct (URL_pathname rt url) as [pathname|]; simpl.
  2:{ eexists. split; [reflexivity|]. simpl. repeat split. exists []. auto. }
  destruct (match_o_path pathname) as [g|]; simpl.
  2:{ eexists. split; [reflexivity|]. simpl. repeat split. exists []. auto. }
  destruct (decodeURIComponent rt g) as [imagePath|]; simpl.
  2:{ eexists. split; [reflexivity|]. simpl. repeat split. exists []. auto. }
  destruct (deleteObject_error faults imagePath); simpl; [|case_decide; simpl].
  all: eexists; (split; [reflexivity|]); simpl; repeat split.
  all: exists [DeleteObject imagePath]; split; [done|]; repeat constructor; eauto.
Qed.

(** With a URL parser whose pathname never holds a ["?"] (in a URL the path
    ends where the query starts), the pattern of [deleteImageFromStorage]
    never matches: no call reaches the asset store, whatever the URL. *)
Lemma deleteImageFromStorage_never_deletes rt faults url w :
  (∀ s p, URL_pathname rt s = Some p → ¬ occurs "?"%char p) →
  backend (snd (deleteImageFromStorage rt faults url w)) = backend w.
Proof.
  intros Hpath. unfold deleteImageFromStorage.
  destruct (bool_decide (url = "") || negb (includes "firebase" url)); [done|].
  unfold_m.
  destruct (URL_pathname rt url) as [pathname|] eqn:Hu; simpl; [|done].
  destruct (match_o_path pathname) as [g|] eqn:Hm; simpl; [|done].
  exfalso. eapply Hpath; eauto using match_o_path_occurs.
Qed.

Lemma take_path_no_question s : ¬ occurs "?"%char (take_path s).
Proof.
  induction s as [|c s IH]; simpl; [tauto|].
  unfold path_end. repeat case_bool_decide; simpl; intuition congruence.
Qed.

(** [sample_pathname] is such a parser. *)
Lemma sample_pathname_no_question s p :
  sample_pathname s = Some p → ¬ occurs "?"%char p.
Proof.
  unfold sample_pathname. destruct (after_scheme s) as [r|]; [|done].
  pose proof (take_path_no_question (skip_authority r)) as H.
  destruct (take_path (skip_authority r)) as [|c t]; intros [= <-]; [|done].
  simpl. intros [?|[]]. discriminate.
Qed.

(** ** The controller: delete *)

Lemma find_id_Some (ms : list FamilyMember) memberId target :
  target ∈ ms → id target = memberId →
  ∃ m, List.find (λ m, bool_decide (id m = memberId)) ms = Some m.
Proof.
  intros Hin Hid. induction Hin as [t l|t t' l Hin IH]; simpl.
  - rewrite bool_decide_eq_true_2 by done. eauto.
  - destruct (bool_decide (id t' = memberId)); eauto.
Qed.

Lemma hasChildren_true (ms : list FamilyMember) memberId child :
  child ∈ ms → parentId child = Str memberId → hasChildren ms memberId = true.
Proof.
  intros Hin Hp. apply bool_decide_eq_true_2, Exists_exists. eauto.
Qed.

(** Once both checks are passed, the record deletion is always requested,
    after whatever the asset cleanup did; nothing is thrown, the in-memory
    collection is not touched, and the only records that can disappear from
    the store are those of the given document id. *)
Lemma delete_effects_effect rt faults ms target memberId w :
  ∃ w' l, delete_effects rt faults ms target memberId w = (Ret tt, w')
    ∧ members (ui w') = members (ui w)
    ∧ calls (backend w') = calls (backend w) ++ l ++ [DeleteDoc memberId]
    ∧ Forall (λ c, ∃ p, c = DeleteObject p) l
    ∧ (familyMembers (backend w') = familyMembers (backend w)
       ∨ familyMembers (backend w')
         = filter (λ d, doc_id d ≠ memberId) (familyMembers (backend w))).
Proof.
  unfold delete_effects.
  set (img := match imageUrl target with
              | Str url => if decide (url = "") then mret tt
                           else deleteImageFromStorage rt faults url
              | _ => mret tt
              end).
  assert (∀ w0, ∃ w1, img w0 = (Ret tt, w1) ∧ ui w1 = ui w0
            ∧ familyMembers (backend w1) = familyMembers (backend w0)
            ∧ ∃ l, calls (backend w1) = calls (backend w0) ++ l
                   ∧ Forall (λ c, ∃ p, c = DeleteObject p) l) as Himg.
  { intros w0. subst img.
    assert (∃ w1, (mret tt : M unit) w0 = (Ret tt, w1) ∧ ui w1 = ui w0
            ∧ familyMembers (backend w1) = familyMembers (backend w0)
            ∧ ∃ l, calls (backend w1) = calls (backend w0) ++ l
                   ∧ Forall (λ c, ∃ p, c = DeleteObject p) l) as Hret.
    { exists w0. repeat split. exists []. by rewrite app_nil_r. }
    destruct (imageUrl target) as [| |url]; try exact Hret.
    case_decide; [exact Hret|].
    destruct (deleteImageFromStorage_effect rt faults url w0)
      as (w1 & -> & ? & ? & ? & ? & ?). eauto 10. }
  set (sp := if decide (truthy (spouseId target)) then
               match List.find (λ m, bool_decide (Str (id m) = spouseId target)) ms with
               | Some spouse => mret tt
               | None => mret tt
               end
             else (mret tt : M unit)).
  assert (∀ w0, sp w0 = (Ret tt, w0)) as Hsp.
  { intros w0. subst sp. case_decide; [|done]. by destruct (List.find _ ms). }
  clearbody img sp.
  unfold deleteDoc. unfold_m. simpl.
  match goal with |- context [img ?w0] =>
    destruct (Himg w0) as (w1 & -> & Hui & Hfm & l & Hcalls & Hl) end.
  rewrite Hsp. simpl in *.
  destruct (deleteDoc_error faults memberId); simpl.
  all: eexists; exists l; (split; [reflexivity|]); simpl.
  all: rewrite Hui, Hfm, Hcalls, <- !(assoc_L (++)); auto.
Qed.

Lemma canDelete_authorized auth target :
  canDelete auth target = true ↔ spec_authorized auth target.
Proof.
  unfold canDelete, spec_authorized. rewrite orb_true_iff, bool_decide_eq_true.
  destruct (userData auth) as [u|]; simpl.
  - split; (intros [H|H]; [left|right; exact H]).
    + exists u. auto.
    + destruct H as (u' & [= <-] & H). exact H.
  - split; (intros [H|H]; [|right; exact H]); [done|].
    by destruct H as (? & ? & _).
Qed.

Lemma handleDeleteMember_found rt faults auth w memberId target :
  List.find (λ m, bool_decide (id m = memberId)) (members (ui w)) = Some target →
  handleDeleteMember rt faults auth memberId w =
    (if negb (canDelete auth target) then alert permission_denied_msg
     else delete_authorized rt faults (members (ui w)) target memberId) w.
Proof.
  intros Hfind. unfold handleDeleteMember. unfold mbind, M_bind, gets.
  by rewrite Hfind.
Qed.

(** C5: deleting a member that has a child is refused for every identity.
    The handler returns after exactly one notification; the stores receive
    no call and keep their contents, and the state of the component is
    unchanged. *)
Theorem handleDeleteMember_refused_with_children rt faults auth w target child :
  target ∈ members (ui w) →
  child ∈ members (ui w) →
  parentId child = Str (id target) →
  ∃ msg,
    handleDeleteMember rt faults auth (id target) w =
      (Ret tt, mkWorld (ui w)
                       (mkBrowser (alerts (browser w) ++ [msg]) (console (browser w))
                                  (timers (browser w)))
                       (backend w))
    ∧ (msg = permission_denied_msg ∨ msg = has_children_msg).
Proof.
  intros Ht Hc Hp.
  destruct (find_id_Some _ _ _ Ht eq_refl) as [m Hm].
  rewrite (handleDeleteMember_found _ _ _ _ _ _ Hm). unfold delete_authorized.
  rewrite (hasChildren_true _ _ _ Hc Hp).
  destruct (canDelete auth m); simpl; eauto.
Qed.

Lemma handleDeleteMember_refused_with_children_witness :
  ∃ msg,
    handleDeleteMember sample_runtime no_faults admin "A"
                       (mkWorld (mkComponent scenario None false None false)
                                (mkBrowser [] [] []) (mkBackend [] [] [])) =
      (Ret tt, mkWorld (mkComponent scenario None false None false)
                       (mkBrowser [msg] [] []) (mkBackend [] [] []))
    ∧ (msg = permission_denied_msg ∨ msg = has_children_msg).
Proof.
  apply (handleDeleteMember_refused_with_children sample_runtime no_faults admin
           (mkWorld (mkComponent scenario None false None false)
                    (mkBrowser [] [] []) (mkBackend [] [] []))
           (mem "A" Null Undefined) (mem "B" (Str "A") Undefined)).
  - simpl. unfold scenario. apply list_elem_of_here.
  - simpl. unfold scenario. apply list_elem_of_further, list_elem_of_here.
  - reflexivity.
Defined.

(** One administrator who is allowed, one other user who is not. *)
Example admin_allowed_stranger_denied :
  canDelete admin (member_of_doc ann_doc) = true
  ∧ canDelete stranger (member_of_doc ann_doc) = false
  ∧ handleDeleteMember sample_runtime no_faults stranger "ann" (world_of [ann_doc] [])
    = (Ret tt, mkWorld (mkComponent [member_of_doc ann_doc] None false None false)
                       (mkBrowser [permission_denied_msg] [] [])
                       (mkBackend [ann_doc] [] [])).
Proof. repeat split. Qed.

(** What one run of [handleDeleteMember] can do: it never throws, leaves the
    in-memory collection alone, asks the stores for nothing but the deletion
    of the document [memberId] and of asset objects, and the only records
    that can disappear from the store are those of the document [memberId]. *)
Lemma handleDeleteMember_effect rt faults auth memberId w :
  ∃ w' l, handleDeleteMember rt faults auth memberId w = (Ret tt, w')
    ∧ members (ui w') = members (ui w)
    ∧ calls (backend w') = calls (backend w) ++ l
    ∧ Forall (λ c, c = DeleteDoc memberId ∨ ∃ p, c = DeleteObject p) l
    ∧ (familyMembers (backend w') = familyMembers (backend w)
       ∨ familyMembers (backend w')
         = filter (λ d, doc_id d ≠ memberId) (familyMembers (backend w))).
Proof.
  assert (∀ v : World,
    members (ui v) = members (ui w)
    ∧ (∃ l, calls (backend v) = calls (backend w) ++ l
        ∧ Forall (λ c, c = DeleteDoc memberId ∨ ∃ p, c = DeleteObject p) l
        ∧ (familyMembers (backend v) = familyMembers (backend w)
           ∨ familyMembers (backend v)
             = filter (λ d, doc_id d ≠ memberId) (familyMembers (backend w)))) →
    ∃ w' l, (Ret tt, v) = (Ret tt, w')
      ∧ members (ui w') = members (ui w)
      ∧ calls (backend w') = calls (backend w) ++ l
      ∧ Forall (λ c, c = DeleteDoc memberId ∨ ∃ p, c = DeleteObject p) l
      ∧ (familyMembers (backend w') = familyMembers (backend w)
         ∨ familyMembers (backend w')
           = filter (λ d, doc_id d ≠ memberId) (familyMembers (backend w)))) as Hv.
  { intros v (? & l & ? & ? & ?). exists v, l. auto. }
  destruct (List.find (λ m, bool_decide (id m = memberId)) (members (ui w)))
    as [target|] eqn:Hfind.
  - rewrite (handleDeleteMember_found _ _ _ _ _ _ Hfind).
    destruct (canDelete auth target); simpl.
    + unfold delete_authorized. destruct (hasChildren _ _).
      * apply Hv. simpl. split; [done|]. exists []. rewrite app_nil_r. auto.
      * destruct (delete_effects_effect rt faults (members (ui w)) target memberId w)
          as (w' & l & -> & Hm & Hc & Hl & Hf).
        apply Hv. split; [done|]. exists (l ++ [DeleteDoc memberId]).
        split; [done|]. split; [|done].
        apply Forall_app. split; [|by repeat constructor].
        eapply Forall_impl; [exact Hl|]. simpl. auto.
    + apply Hv. simpl. split; [done|]. exists []. rewrite app_nil_r. auto.
  - unfold handleDeleteMember, mbind, M_bind, gets. rewrite Hfind.
    apply Hv. split; [done|]. exists []. rewrite app_nil_r. auto.
Qed.

(** C9: a run of [handleDeleteMember] leaves every stored record of another
    document (the spouse's among them) as it was, spouse reference
    included; it adds no record and changes none, and the in-memory
    collection is the same after it. *)
Theorem handleDeleteMember_keeps_other_records rt faults auth memberId w d :
  d ∈ familyMembers (backend w) →
  doc_id d ≠ memberId →
  d ∈ familyMembers (backend (snd (handleDeleteMember rt faults auth memberId w)))
  ∧ (∀ d', d' ∈ familyMembers (backend (snd (handleDeleteMember rt faults auth memberId w))) →
           d' ∈ familyMembers (backend w))
  ∧ members (ui (snd (handleDeleteMember rt faults auth memberId w))) = members (ui w).
Proof.
  intros Hd Hne.
  destruct (handleDeleteMember_effect rt faults auth memberId w)
    as (w' & l & -> & Hm & _ & _ & Hf). simpl.
  destruct Hf as [-> | ->].
  - auto.
  - split; [|split; [|done]].
    + apply list_elem_of_filter. auto.
    + intros d' Hd'. apply list_elem_of_filter in Hd'. tauto.
Qed.

Lemma handleDeleteMember_keeps_other_records_witness :
  bea_doc ∈ familyMembers (backend (snd (handleDeleteMember sample_runtime no_faults admin "ann"
                                           (world_of [ann_married_doc; bea_doc] []))))
  ∧ (∀ d', d' ∈ familyMembers (backend (snd (handleDeleteMember sample_runtime no_faults admin "ann"
                                               (world_of [ann_married_doc; bea_doc] [])))) →
           d' ∈ familyMembers (backend (world_of [ann_married_doc; bea_doc] [])))
  ∧ members (ui (snd (handleDeleteMember sample_runtime no_faults admin "ann"
                        (world_of [ann_married_doc; bea_doc] []))))
    = members (ui (world_of [ann_married_doc; bea_doc] [])).
Proof.
  apply (handleDeleteMember_keeps_other_records sample_runtime no_faults admin "ann"
           (world_of [ann_married_doc; bea_doc] []) bea_doc).
  - simpl. apply list_elem_of_further, list_elem_of_here.
  - simpl. discriminate.
Defined.

(** The refetch that a successful deletion schedules only reads the store. *)
Lemma run_timer_keeps_records faults auth t w :
  familyMembers (backend (snd (run_timer faults auth t w))) = familyMembers (backend w)
  ∧ storage (backend (snd (run_timer faults auth t w))) = storage (backend w).
Proof.
  destruct t. unfold run_timer, fetchMembers, getDocs. unfold_m.
  destruct (currentUser auth); simpl; [|done].
  destruct (getDocs_error faults); simpl; done.
Qed.

(** After Ann's deletion the store holds Bea's record alone, still pointing
    at the document that is gone. *)
Example spouse_reference_dangles :
  familyMembers (backend (snd (handleDeleteMember sample_runtime no_faults admin "ann"
                                 (world_of [ann_married_doc; bea_doc] []))))
  = [bea_doc]
  ∧ data_spouseId bea_doc = Str "ann".
Proof. split; reflexivity. Qed.

(** C10: a target without [createdBy] passes the authorization check of an
    identity without profile; when it has no child either, the handler runs
    the side-effect phase and the deletion of the record is requested. *)
Theorem absent_identity_deletes_unowned rt faults user w memberId target :
  List.find (λ m, bool_decide (id m = memberId)) (members (ui w)) = Some target →
  createdBy target = Undefined →
  hasChildren (members (ui w)) memberId = false →
  canDelete (mkAuth user None) target = true
  ∧ handleDeleteMember rt faults (mkAuth user None) memberId w
    = delete_effects rt faults (members (ui w)) target memberId w
  ∧ DeleteDoc memberId
    ∈ calls (backend (snd (handleDeleteMember rt faults (mkAuth user None) memberId w))).
Proof.
  intros Hfind Hc Hk.
  assert (canDelete (mkAuth user None) target = true) as Hcan.
  { unfold canDelete. simpl. rewrite Hc. reflexivity. }
  split; [exact Hcan|].
  rewrite (handleDeleteMember_found _ _ _ _ _ _ Hfind), Hcan. simpl.
  unfold delete_authorized. rewrite Hk. split; [done|].
  destruct (delete_effects_effect rt faults (members (ui w)) target memberId w)
    as (w' & l & -> & _ & Hcalls & _ & _). simpl. rewrite Hcalls.
  rewrite !elem_of_app. right. right. apply list_elem_of_here.
Qed.

Lemma absent_identity_deletes_unowned_witness :
  canDelete (mkAuth (Some "u2") None) (member_of_doc orphan_doc) = true
  ∧ handleDeleteMember sample_runtime no_faults (mkAuth (Some "u2") None) "zed"
                       (world_of [orphan_doc] [])
    = delete_effects sample_runtime no_faults (members (ui (world_of [orphan_doc] [])))
                     (member_of_doc orphan_doc) "zed" (world_of [orphan_doc] [])
  ∧ DeleteDoc "zed"
    ∈ calls (backend (snd (handleDeleteMember sample_runtime no_faults
                             (mkAuth (Some "u2") None) "zed" (world_of [orphan_doc] [])))).
Proof.
  apply (absent_identity_deletes_unowned sample_runtime no_faults (Some "u2")
           (world_of [orphan_doc] []) "zed" (member_of_doc orphan_doc));
    reflexivity.
Defined.

Example absent_identity_deletes_record :
  familyMembers (backend (snd (handleDeleteMember sample_runtime no_faults
                                 (mkAuth (Some "u2") None) "zed" (world_of [orphan_doc] []))))
  = [].
Proof. reflexivity. Qed.

(** C7 at a member whose picture is in the asset store: the URL is one of
    the store's and parses, yet its pathname has no ["?"] for the pattern to
    match, so no call reaches the asset store.  The record is deleted and
    the picture stays. *)
Theorem delete_skips_asset_store :
  includes "firebase" photo_url = true
  ∧ URL_pathname sample_runtime photo_url = Some "/v0/b/app/o/images%2Fann.jpg"
  ∧ match_o_path "/v0/b/app/o/images%2Fann.jpg" = None
  ∧ handleDeleteMember sample_runtime no_faults admin "ann"
                       (world_of [ann_doc] ["images/ann.jpg"])
    = (Ret tt,
       mkWorld (mkComponent [member_of_doc ann_doc] None false None true)
               (mkBrowser [] [] [(RefetchAfterDelete, 1500)])
               (mkBackend [] ["images/ann.jpg"] [DeleteDoc "ann"])).
Proof. repeat split. Qed.

(** ** The tree builder: the scenario *)

(** C4, as the code has it: the scenario yields two roots.  A has the
    children B and C in that order, C carries D as its spouse, and D, which
    has no parent, is a root of its own as well. *)
Theorem scenario_tree :
  buildTree scenario =
    [ mkTreeNode (mem "A" Null Undefined)
        [ mkTreeNode (mem "B" (Str "A") Undefined) [] None;
          mkTreeNode (mem "C" (Str "A") (Str "D")) [] (Some (mem "D" Null Undefined)) ]
        None;
      mkTreeNode (mem "D" Null Undefined) [] None ].
Proof. vm_compute. reflexivity. Qed.

(** C4 fails as stated: the forest has a second root, and it is D. *)
Lemma scenario_has_root_D :
  member <$> buildTree scenario = [mem "A" Null Undefined; mem "D" Null Undefined].
Proof. vm_compute. reflexivity. Qed.

(** ** The tree builder: termination *)

Lemma map_st_grows {A B : Type} (f : A → gset string → option (B * gset string)) l :
  (∀ x p y p', x ∈ l → f x p = Some (y, p') → p ⊆ p') →
  ∀ p ys p', map_st f l p = Some (ys, p') → p ⊆ p'.
Proof.
  induction l as [|x l IH]; intros Hf p ys p'; simpl.
  - by intros [= _ <-].
  - destruct (f x p) as [[y p1]|] eqn:Hx; [|done].
    destruct (map_st f l p1) as [[ys' p2]|] eqn:Hl; [|done].
    intros [= _ <-]. transitivity p1.
    + eapply Hf; [apply list_elem_of_here|done].
    + eapply IH; [|done]. intros; eapply Hf; [by apply list_elem_of_further|done].
Qed.

Lemma map_st_ext {A B : Type} (f g : A → gset string → option (B * gset string)) l :
  (∀ x p r, x ∈ l → f x p = Some r → g x p = Some r) →
  ∀ p r, map_st f l p = Some r → map_st g l p = Some r.
Proof.
  induction l as [|x l IH]; intros Hfg p r; simpl; [done|].
  destruct (f x p) as [[y p1]|] eqn:Hx; [|done].
  rewrite (Hfg x p (y, p1) (list_elem_of_here _ _) Hx).
  destruct (map_st f l p1) as [[ys p2]|] eqn:Hl; [|done].
  assert (map_st g l p1 = Some (ys, p2)) as ->; [|done].
  apply IH; [|exact Hl].
  intros; eapply Hfg; [by apply list_elem_of_further|done].
Qed.

Lemma size_difference_lt (X P Q : gset string) x :
  x ∈ X → x ∉ P → {[x]} ∪ P ⊆ Q → size (X ∖ Q) < size (X ∖ P).
Proof.
  intros Hx HP HQ.
  assert (X ∖ Q ⊆ (X ∖ P) ∖ {[x]}) as Hsub.
  { intros y. rewrite !elem_of_difference, elem_of_singleton. intros [Hy HyQ].
    split; [split; [done|]|]; intros Hy'; apply HyQ, HQ, elem_of_union.
    - by right.
    - left. by apply elem_of_singleton. }
  apply subseteq_size in Hsub.
  assert (({[x]} : gset string) ⊆ X ∖ P) as Hs.
  { intros y Hy. apply elem_of_singleton in Hy as ->. by apply elem_of_difference. }
  pose proof (size_difference (X ∖ P) {[x]} Hs) as Hd.
  rewrite size_singleton in Hd.
  assert (size (X ∖ P) ≠ 0).
  { intros H0. apply size_empty_iff in H0. specialize (Hs x).
    rewrite elem_of_singleton in Hs. specialize (Hs eq_refl).
    apply H0 in Hs. by apply elem_of_empty in Hs. }
  lia.
Qed.

Lemma size_list_to_set_length (l : list string) :
  size (list_to_set l : gset string) ≤ length l.
Proof.
  induction l as [|x l IH].
  - by rewrite list_to_set_nil, size_empty.
  - rewrite list_to_set_cons, size_union_alt, size_singleton. simpl.
    assert (size (list_to_set l ∖ {[x]} : gset string) ≤ size (list_to_set l : gset string)).
    { apply subseteq_size. intros y. rewrite elem_of_difference. tauto. }
    lia.
Qed.

Section builder_facts.
Context (ms : list FamilyMember).

(** [processed] only grows. *)
Lemma buildNode_grows fuel m p t p' :
  buildNode ms fuel m p = Some (t, p') → p ⊆ p'.
Proof.
  revert m p t p'. induction fuel as [|fuel IH]; intros m p t p'; simpl; [done|].
  destruct (map_st _ _ p) as [[cs p1]|] eqn:Hcs; [|done].
  intros [= _ <-]. eapply map_st_grows; [|exact Hcs].
  intros x q y q' _ Hx. apply IH in Hx.
  etransitivity; [|exact Hx]. apply union_subseteq_r.
Qed.

(** More fuel does not change a result. *)
Lemma buildNode_fuel_mono (fuel fuel' : nat) m p r :
  fuel ≤ fuel' → buildNode ms fuel m p = Some r → buildNode ms fuel' m p = Some r.
Proof.
  revert fuel' m p r. induction fuel as [|fuel IH]; intros fuel' m p r Hle; simpl; [done|].
  destruct fuel' as [|fuel']; [lia|]. simpl.
  destruct (map_st _ _ p) as [[cs p1]|] eqn:Hcs; [|done].
  intros [= <-].
  assert (map_st (λ child q, buildNode ms fuel' child ({[id child]} ∪ q))
                 (unplaced_children ms m p) p = Some (cs, p1)) as ->; [|done].
  eapply map_st_ext; [|exact Hcs].
  intros x q r _. apply IH. lia.
Qed.

Lemma unplaced_children_spec m p c :
  c ∈ unplaced_children ms m p ↔ (parentId c = Str (id m) ∧ id c ∉ p) ∧ c ∈ ms.
Proof. unfold unplaced_children. by rewrite list_elem_of_filter. Qed.

Lemma idset_elem (l : list FamilyMember) m : m ∈ l → id m ∈ idset l.
Proof.
  intros Hm. unfold idset. apply elem_of_list_to_set, list_elem_of_fmap. eauto.
Qed.

(** A call always returns when the fuel exceeds the number of ids that are
    not yet in [processed]: every nested call adds its id before it
    descends. *)
Lemma buildNode_returns (fuel : nat) m p :
  size (idset ms ∖ p) < fuel → is_Some (buildNode ms fuel m p).
Proof.
  revert m p. induction fuel as [|fuel IH]; intros m p Hsz; [lia|]. simpl.
  assert (∀ l q, (∀ c, c ∈ l → c ∈ ms ∧ id c ∉ p) → p ⊆ q →
            is_Some (map_st (λ child q, buildNode ms fuel child ({[id child]} ∪ q)) l q))
    as Hloop.
  { induction l as [|c l IHl]; intros q Hl Hq; simpl; [eauto|].
    destruct (Hl c (list_elem_of_here _ _)) as [Hc Hcp].
    destruct (IH c ({[id c]} ∪ q)) as [[t q1] Ht].
    { pose proof (size_difference_lt (idset ms) p ({[id c]} ∪ q) (id c)
                    (idset_elem _ _ Hc) Hcp) as Hlt.
      assert ({[id c]} ∪ p ⊆ {[id c]} ∪ q) as Hsub by (by apply union_mono_l).
      specialize (Hlt Hsub). lia. }
    rewrite Ht. apply buildNode_grows in Ht.
    destruct (IHl q1) as [[ts q2] Hts].
    - intros c' Hc'. apply Hl. by apply list_elem_of_further.
    - etransitivity; [exact Hq|]. etransitivity; [|exact Ht]. apply union_subseteq_r.
    - rewrite Hts. eauto. }
  destruct (Hloop (unplaced_children ms m p) p) as [[cs p1] Hcs]; [|done|].
  - intros c Hc. apply unplaced_children_spec in Hc. tauto.
  - rewrite Hcs. eauto.
Qed.

Lemma size_idset_le : size (idset ms) ≤ length ms.
Proof.
  unfold idset. etransitivity; [apply size_list_to_set_length|].
  by rewrite length_fmap.
Qed.

Lemma root_members_spec r :
  r ∈ root_members ms ↔ ¬ truthy (parentId r) ∧ r ∈ ms.
Proof.
  unfold root_members. rewrite list_elem_of_filter.
  pose proof (not_elem_of_empty (C:=gset string) (id r)). tauto.
Qed.

Lemma buildTree_fuel_returns (fuel : nat) :
  length ms < fuel → is_Some (buildTree_fuel ms fuel).
Proof.
  intros Hfuel. unfold buildTree_fuel.
  assert (∀ l q, is_Some (map_st (λ r q, buildNode ms fuel r ({[id r]} ∪ q)) l q))
    as Hloop.
  { induction l as [|r l IHl]; intros q; simpl; [eauto|].
    destruct (buildNode_returns fuel r ({[id r]} ∪ q)) as [[t q1] Ht].
    { pose proof size_idset_le.
      assert (size (idset ms ∖ ({[id r]} ∪ q)) ≤ size (idset ms))
        by (apply subseteq_size, subseteq_difference_l; done).
      lia. }
    rewrite Ht. destruct (IHl q1) as [[ts q2] ->]. eauto. }
  destruct (Hloop (root_members ms) ∅) as [[ts q] ->]. simpl. eauto.
Qed.

Lemma buildTree_fuel_mono (fuel fuel' : nat) r :
  fuel ≤ fuel' → buildTree_fuel ms fuel = Some r → buildTree_fuel ms fuel' = Some r.
Proof.
  intros Hle. unfold buildTree_fuel.
  destruct (map_st _ _ ∅) as [[ts q]|] eqn:Hts; [|done].
  intros [= <-].
  assert (map_st (λ r q, buildNode ms fuel' r ({[id r]} ∪ q)) (root_members ms) ∅
          = Some (ts, q)) as ->; [|done].
  eapply map_st_ext; [|exact Hts].
  intros x p r _. by apply buildNode_fuel_mono.
Qed.
End builder_facts.

Lemma buildTree_fuel_enough (ms : list FamilyMember) (fuel : nat) :
  length ms < fuel → buildTree_fuel ms fuel = Some (buildTree ms).
Proof.
  intros Hfuel. unfold buildTree.
  destruct (buildTree_fuel_returns ms (S (length ms))) as [ts Hts]; [lia|].
  rewrite Hts. simpl. eapply buildTree_fuel_mono; [|exact Hts]. lia.
Qed.

(** C8: [buildTree] terminates on every collection.  The recursion of
    [buildNode] is never deeper than the number of members: with any fuel
    above that number the builder returns, and always the same forest. *)
Theorem buildTree_terminates (ms : list FamilyMember) (extra : nat) :
  buildTree_fuel ms (S (length ms) + extra) = Some (buildTree ms).
Proof. apply buildTree_fuel_enough. lia. Qed.

(** ** The tree builder: which members are placed *)

Lemma anchored_elem ms m : anchored ms m → m ∈ ms.
Proof. by intros [? ? ?|? ? ? ? ?]. Qed.

Lemma forest_members_cons t ts :
  forest_members (t :: ts) = tree_members t ++ forest_members ts.
Proof. reflexivity. Qed.

Lemma forest_members_singleton t : forest_members [t] = tree_members t.
Proof. unfold forest_members. simpl. by rewrite app_nil_r. Qed.

Lemma tree_members_unfold t :
  tree_members t = member t :: forest_members (children t).
Proof. by destruct t. Qed.

Lemma roots_in_forest ts t : t ∈ ts → member t ∈ forest_members ts.
Proof.
  induction 1 as [t ts|t t' ts _ IH]; rewrite forest_members_cons, elem_of_app.
  - left. rewrite tree_members_unfold. apply list_elem_of_here.
  - by right.
Qed.

Lemma map_st_Forall {A B : Type} (f : A → gset string → option (B * gset string))
    (Q : B → Prop) l :
  (∀ x p y p', x ∈ l → f x p = Some (y, p') → Q y) →
  ∀ p ys p', map_st f l p = Some (ys, p') → Forall Q ys.
Proof.
  induction l as [|x l IH]; intros Hf p ys p'; simpl.
  - intros [= <- _]. constructor.
  - destruct (f x p) as [[y p1]|] eqn:Hx; [|done].
    destruct (map_st f l p1) as [[ys' p2]|] eqn:Hl; [|done].
    intros [= <- _]. constructor.
    + eapply Hf; [apply list_elem_of_here|done].
    + eapply IH; [|done]. intros; eapply Hf; [by apply list_elem_of_further|done].
Qed.

Lemma map_st_members (f : FamilyMember → gset string → option (TreeNode * gset string)) l :
  (∀ x p y p', f x p = Some (y, p') → member y = x) →
  ∀ p ts p', map_st f l p = Some (ts, p') → member <$> ts = l.
Proof.
  intros Hf. induction l as [|x l IH]; intros p ts p'; simpl.
  - by intros [= <- _].
  - destruct (f x p) as [[y p1]|] eqn:Hx; [|done].
    destruct (map_st f l p1) as [[ys' p2]|] eqn:Hl; [|done].
    intros [= <- _]. simpl. f_equal; eauto.
Qed.

Section placement.
Context (ms : list FamilyMember).

Lemma buildNode_member fuel m p t p' :
  buildNode ms fuel m p = Some (t, p') → member t = m.
Proof.
  destruct fuel as [|fuel]; simpl; [done|].
  destruct (map_st _ _ p) as [[cs p1]|]; [|done]. by intros [= <- _].
Qed.

Lemma buildNode_children fuel m p t p' :
  buildNode ms (S fuel) m p = Some (t, p') →
  map_st (λ child q, buildNode ms fuel child ({[id child]} ∪ q))
         (unplaced_children ms m p) p = Some (children t, p').
Proof.
  simpl. destruct (map_st _ _ p) as [[cs p1]|]; [|done]. by intros [= <- <-].
Qed.

(** The forest is the result of the loop over the roots. *)
Lemma buildTree_loop :
  ∃ p', map_st (λ r p, buildNode ms (S (length ms)) r ({[id r]} ∪ p))
               (root_members ms) ∅ = Some (buildTree ms, p').
Proof.
  pose proof (buildTree_fuel_enough ms (S (length ms)) (Nat.lt_succ_diag_r _)) as H.
  unfold buildTree_fuel in H.
  destruct (map_st _ _ ∅) as [[ts p']|]; [|done].
  injection H as <-. eauto.
Qed.

(** The roots are the members without parent, in the order of the
    collection. *)
Lemma buildTree_roots :
  member <$> buildTree ms = filter (λ r, ¬ truthy (parentId r)) ms.
Proof.
  destruct buildTree_loop as [p' H].
  apply map_st_members in H.
  - rewrite H. unfold root_members. apply list_filter_iff.
    intros r. pose proof (not_elem_of_empty (C:=gset string) (id r)). tauto.
  - intros x p y q. apply buildNode_member.
Qed.

(** Every member that the builder places is anchored. *)
Lemma buildNode_anchored fuel m p t p' :
  anchored ms m → buildNode ms fuel m p = Some (t, p') →
  Forall (anchored ms) (tree_members t).
Proof.
  revert m p t p'. induction fuel as [|fuel IH]; intros m p t p' Hm Ht; [done|].
  pose proof (buildNode_member _ _ _ _ _ Ht) as Hmt.
  apply buildNode_children in Ht.
  rewrite tree_members_unfold, Hmt. constructor; [done|].
  unfold forest_members. apply Forall_concat, Forall_fmap.
  eapply map_st_Forall; [|exact Ht].
  intros c q y q' Hc Hy. simpl. eapply IH; [|exact Hy].
  apply unplaced_children_spec in Hc as [[Hp _] Hin].
  by eapply anchored_child.
Qed.

Lemma buildTree_anchored : Forall (anchored ms) (forest_members (buildTree ms)).
Proof.
  destruct buildTree_loop as [p' H].
  unfold forest_members. apply Forall_concat, Forall_fmap.
  eapply map_st_Forall; [|exact H].
  intros r q y q' Hr Hy. simpl. eapply buildNode_anchored; [|exact Hy].
  apply root_members_spec in Hr as [? ?]. by apply anchored_root.
Qed.
End placement.

(** C2, as the code has it: a member whose [parentId] is a non-empty string
    that is the id of no member is not a root and holds no primary position,
    root or descendant, of the forest; the roots are exactly the members
    whose [parentId] is absent, null or empty, in the order of the
    collection.  The spouse field of a placed node can still resolve to such
    a member, see [dangling_member_as_spouse]. *)
Theorem dangling_parent_not_placed (ms : list FamilyMember) m p :
  m ∈ ms → parentId m = Str p → p ≠ "" → (∀ q, q ∈ ms → id q ≠ p) →
  (m ∉ member <$> buildTree ms)
  ∧ (m ∉ forest_members (buildTree ms))
  ∧ member <$> buildTree ms = filter (λ r, ¬ truthy (parentId r)) ms.
Proof.
  intros Hm Hp Hne Hdangling.
  assert (¬ anchored ms m) as Hna.
  { intros Ha. inversion Ha as [? _ Hf|? q _ Hq Hpq]; subst.
    - rewrite Hp in Hf. simpl in Hf. tauto.
    - rewrite Hp in Hpq. injection Hpq as ->.
      by apply (Hdangling q (anchored_elem _ _ Hq)). }
  assert (m ∉ forest_members (buildTree ms)) as Hnf.
  { intros Hin. apply Hna.
    by apply (proj1 (Forall_forall _ _) (buildTree_anchored ms)). }
  split; [|split; [done|apply buildTree_roots]].
  intros Hin. apply Hnf. apply list_elem_of_fmap in Hin as (t & -> & Ht).
  by apply roots_in_forest.
Qed.

Lemma dangling_parent_not_placed_witness :
  (mem "B" (Str "A") Undefined ∉ member <$> buildTree dangling)
  ∧ (mem "B" (Str "A") Undefined ∉ forest_members (buildTree dangling))
  ∧ member <$> buildTree dangling = filter (λ r, ¬ truthy (parentId r)) dangling.
Proof.
  apply (dangling_parent_not_placed dangling (mem "B" (Str "A") Undefined) "A").
  - apply list_elem_of_here.
  - reflexivity.
  - discriminate.
  - intros q Hq. apply list_elem_of_singleton in Hq as ->. discriminate.
Defined.

(** A member with a dangling [parentId] holds no primary position, yet the
    spouse lookup does not look at [parentId]: here B is attached to the
    root R as its spouse. *)
Example dangling_member_as_spouse :
  buildTree [mem "R" Null (Str "B"); mem "B" (Str "A") Undefined]
  = [mkTreeNode (mem "R" Null (Str "B")) [] (Some (mem "B" (Str "A") Undefined))].
Proof. vm_compute. reflexivity. Qed.

(** C2 fails as stated: B's parent A is not in the collection, and the
    forest is empty, so B is not a root of it. *)
Lemma dangling_parent_is_no_root :
  parentId (mem "B" (Str "A") Undefined) = Str "A"
  ∧ (∀ q, q ∈ dangling → id q ≠ "A")
  ∧ buildTree dangling = [].
Proof.
  split; [reflexivity|]. split; [|vm_compute; reflexivity].
  intros q Hq. apply list_elem_of_singleton in Hq as ->. discriminate.
Qed.

(** ** The tree builder: every anchored member is placed once *)

Lemma idset_app l1 l2 : idset (l1 ++ l2) = idset l1 ∪ idset l2.
Proof. unfold idset. by rewrite fmap_app, list_to_set_app_L. Qed.

Lemma idset_cons m l : idset (m :: l) = {[id m]} ∪ idset l.
Proof. reflexivity. Qed.

Lemma elem_of_idset l i : i ∈ idset l ↔ ∃ m, m ∈ l ∧ id m = i.
Proof.
  unfold idset. rewrite elem_of_list_to_set, list_elem_of_fmap.
  split; intros (m & ? & ?); eauto.
Qed.

Lemma unique_id (ms : list FamilyMember) a b :
  NoDup (id <$> ms) → a ∈ ms → b ∈ ms → id a = id b → a = b.
Proof.
  intros Hnd Ha Hb Hab.
  apply list_elem_of_lookup in Ha as [i Hi]. apply list_elem_of_lookup in Hb as [j Hj].
  assert (i = j) as ->; [|congruence].
  eapply NoDup_lookup; [exact Hnd| |]; rewrite list_lookup_fmap.
  - by rewrite Hi.
  - rewrite Hj. simpl. by rewrite Hab.
Qed.

Section exactly_once.
Context (ms : list FamilyMember).
Hypothesis ids_unique : NoDup (id <$> ms).

(** The loop, given what one call of [buildNode] achieves. *)
Lemma loop_ok (f : FamilyMember → gset string → option (TreeNode * gset string)) :
  (∀ k p t p', k ∈ ms → id k ∉ p → f k p = Some (t, p') → forest_ok ms [k] p [t] p') →
  ∀ l p ts p',
    (∀ k, k ∈ l → k ∈ ms) →
    NoDup (id <$> l) →
    (∀ k, k ∈ l → id k ∉ p) →
    (∀ k q, k ∈ l → q ∈ ms → parentId k = Str (id q) → id q ∈ p) →
    map_st f l p = Some (ts, p') →
    forest_ok ms l p ts p'.
Proof.
  intros Hf. induction l as [|k l IH]; intros p ts p' Hin Hnd Hfresh Hbase; simpl.
  - intros [= <- <-]. split; simpl; try done.
    + change (idset (forest_members [])) with (∅ : gset string).
      by rewrite union_empty_r_L.
    + intros d Hd. by apply elem_of_nil in Hd.
    + intros q c Hq. by apply elem_of_nil in Hq.
  - destruct (f k p) as [[t p1]|] eqn:Hk; [|done].
    destruct (map_st f l p1) as [[ts' p2]|] eqn:Hl; [|done].
    intros [= <- <-].
    assert (k ∈ ms) as Hkms by (apply Hin, list_elem_of_here).
    assert (id k ∉ p) as Hkp by (apply Hfresh, list_elem_of_here).
    destruct (Hf k p t p1 Hkms Hkp Hk) as [Hr1 He1 Hp1 Hn1 Hf1 Hpar1 Hc1].
    rewrite forest_members_singleton in He1, Hp1, Hn1, Hf1, Hpar1, Hc1.
    rewrite fmap_cons in Hnd.
    apply NoDup_cons in Hnd as [Hkl Hndl].
    assert (∀ k2, k2 ∈ l → id k2 ∉ p1) as Hfresh1.
    { intros k2 Hk2. rewrite Hp1, not_elem_of_union. split.
      - apply Hfresh. by apply list_elem_of_further.
      - rewrite elem_of_idset. intros (d & Hd & Hid).
        assert (d = k2) as ->.
        { apply (unique_id ms); auto. apply Hin. by apply list_elem_of_further. }
        destruct (Hpar1 k2 Hd) as [Hk2k|(q & Hq & Hpq)].
        + apply list_elem_of_singleton in Hk2k as ->.
          apply Hkl, list_elem_of_fmap. eauto.
        + apply (Hf1 q Hq). eapply Hbase; [by apply list_elem_of_further| |exact Hpq].
          by apply He1. }
    assert (p ⊆ p1) as Hpp1 by (rewrite Hp1; apply union_subseteq_l).
    destruct (IH p1 ts' p2) as [Hr2 He2 Hp2 Hn2 Hf2 Hpar2 Hc2]; auto.
    { intros k2 Hk2. apply Hin. by apply list_elem_of_further. }
    { intros k2 q Hk2 Hq Hpq. apply Hpp1. eapply Hbase; [|exact Hq|exact Hpq].
      by apply list_elem_of_further. }
    split.
    + rewrite fmap_cons, Hr2. by injection Hr1 as ->.
    + intros d. rewrite forest_members_cons, elem_of_app. intros [?|?]; auto.
    + rewrite forest_members_cons, idset_app, Hp2, Hp1. by rewrite (assoc_L (∪)).
    + rewrite forest_members_cons, fmap_app. apply NoDup_app. split; [done|]. split; [|done].
      intros i Hi Hi'. apply list_elem_of_fmap in Hi' as (d' & -> & Hd').
      apply (Hf2 d' Hd'). rewrite Hp1, elem_of_union. right.
      apply list_elem_of_fmap in Hi as (d & Hid & Hd).
      apply elem_of_idset. eauto.
    + intros d. rewrite forest_members_cons, elem_of_app. intros [Hd|Hd]; [by apply Hf1|].
      intros Hdp. by apply (Hf2 d Hd), Hpp1.
    + intros d. rewrite forest_members_cons, elem_of_app. intros [Hd|Hd].
      * destruct (Hpar1 d Hd) as [Hdk|(q & Hq & Hpq)].
        -- apply list_elem_of_singleton in Hdk as ->. left. apply list_elem_of_here.
        -- right. exists q. rewrite elem_of_app. auto.
      * destruct (Hpar2 d Hd) as [Hdl|(q & Hq & Hpq)].
        -- left. by apply list_elem_of_further.
        -- right. exists q. rewrite elem_of_app. auto.
    + intros q c. rewrite forest_members_cons, elem_of_app. intros [Hq|Hq] Hc Hpc.
      * rewrite Hp2. apply elem_of_union. left. by eapply Hc1.
      * by eapply Hc2.
Qed.
Lemma NoDup_id_filter (P : FamilyMember → Prop) `{!∀ x, Decision (P x)} :
  NoDup (id <$> filter P ms).
Proof.
  eapply sublist_NoDup; [exact ids_unique|].
  apply fmap_sublist, sublist_filter.
Qed.

(** One call of [buildNode] on a member [k] that has just been marked. *)
Lemma node_ok fuel k p t p' :
  k ∈ ms → id k ∉ p →
  buildNode ms fuel k ({[id k]} ∪ p) = Some (t, p') →
  forest_ok ms [k] p [t] p'.
Proof.
  revert k p t p'. induction fuel as [|fuel IH]; intros k p t p' Hk Hkp Ht; [done|].
  pose proof (buildNode_member _ _ _ _ _ _ Ht) as Hmt.
  apply buildNode_children in Ht.
  assert (id k ∈ {[id k]} ∪ p) as HkP by (apply elem_of_union_l; by apply elem_of_singleton).
  apply (loop_ok _ IH) in Ht as [Hr He Hp Hn Hf Hpar Hc].
  - split; rewrite ?forest_members_singleton, ?tree_members_unfold, ?Hmt.
    + simpl. by rewrite Hmt.
    + intros d [->|Hd]%elem_of_cons; auto.
    + rewrite idset_cons, Hp. apply set_eq. intros i.
      rewrite !elem_of_union. tauto.
    + rewrite fmap_cons. apply NoDup_cons. split; [|done].
      intros (d & Hid & Hd)%list_elem_of_fmap. apply (Hf d Hd). by rewrite <- Hid.
    + intros d [->|Hd]%elem_of_cons; [done|].
      intros Hdp. apply (Hf d Hd). by apply elem_of_union_r.
    + intros d [->|Hd]%elem_of_cons; [left; apply list_elem_of_here|]. right.
      destruct (Hpar d Hd) as [Hdk|(q & Hq & Hpq)].
      * apply unplaced_children_spec in Hdk as [[Hpd _] _].
        exists k. split; [apply list_elem_of_here|done].
      * exists q. split; [by apply list_elem_of_further|done].
    + intros q c [->|Hq]%elem_of_cons Hcms Hpc; [|by eapply Hc].
      destruct (decide (id c ∈ {[id k]} ∪ p)) as [Hin|Hout].
      * rewrite Hp. by apply elem_of_union_l.
      * assert (c ∈ unplaced_children ms k ({[id k]} ∪ p)) as Hkid
          by (by apply unplaced_children_spec).
        rewrite <- Hr in Hkid. apply list_elem_of_fmap in Hkid as (tc & -> & Htc).
        rewrite Hp. apply elem_of_union_r, elem_of_idset.
        exists (member tc). split; [by apply roots_in_forest|done].
  - intros c Hc. apply unplaced_children_spec in Hc. tauto.
  - unfold unplaced_children. apply NoDup_id_filter.
  - intros c Hc. apply unplaced_children_spec in Hc. tauto.
  - intros c q Hc Hq Hpq. apply unplaced_children_spec in Hc as [[Hpc _] _].
    rewrite Hpc in Hpq. injection Hpq as Hid. by rewrite <- Hid.
Qed.

Hypothesis ids_nonempty : ∀ m, m ∈ ms → id m ≠ "".

Lemma buildTree_ok : ∃ p', forest_ok ms (root_members ms) ∅ (buildTree ms) p'.
Proof.
  destruct (buildTree_loop ms) as [p' H]. exists p'.
  apply (loop_ok _ (node_ok (S (length ms)))) in H; [done|..].
  - intros r Hr. apply root_members_spec in Hr. tauto.
  - unfold root_members. apply NoDup_id_filter.
  - intros r _. apply not_elem_of_empty.
  - intros r q Hr Hq Hpq. apply root_members_spec in Hr as [Hfalsy _].
    rewrite Hpq in Hfalsy. simpl in Hfalsy. exfalso. apply Hfalsy.
    by apply ids_nonempty.
Qed.

Lemma anchored_placed m : anchored ms m → m ∈ forest_members (buildTree ms).
Proof.
  destruct buildTree_ok as [p' [Hr He Hp Hn Hf Hpar Hc]].
  induction 1 as [m Hm Hfalsy|m q Hm Hq IH Hpq].
  - assert (m ∈ root_members ms) as Hroot by (by apply root_members_spec).
    rewrite <- Hr in Hroot. apply list_elem_of_fmap in Hroot as (t & -> & Ht).
    by apply roots_in_forest.
  - pose proof (Hc q m IH Hm Hpq) as Hin.
    rewrite Hp, elem_of_union in Hin. destruct Hin as [Hin|Hin].
    + by apply elem_of_empty in Hin.
    + apply elem_of_idset in Hin as (d & Hd & Hid).
      by rewrite <- (unique_id ms d m ids_unique (He d Hd) Hm Hid).
Qed.
End exactly_once.

(** C1, as the code has it: over a collection with unique, non-empty ids the
    forest holds no member twice, and it holds exactly the anchored members:
    those without parent and those whose chain of [parentId] references leads
    to one.  Members on a cycle of references or below a dangling reference
    are left out. *)
Theorem buildTree_places_anchored_once (ms : list FamilyMember) :
  NoDup (id <$> ms) →
  (∀ m, m ∈ ms → id m ≠ "") →
  NoDup (forest_members (buildTree ms))
  ∧ ∀ m, m ∈ forest_members (buildTree ms) ↔ anchored ms m.
Proof.
  intros Hu Hne. split.
  - destruct (buildTree_ok ms Hu Hne) as [p' Hok].
    eapply NoDup_fmap_1, (ok_NoDup _ _ _ _ _ Hok).
  - intros m. split.
    + apply (proj1 (Forall_forall _ _) (buildTree_anchored ms)).
    + by apply anchored_placed.
Qed.

Lemma buildTree_places_anchored_once_witness :
  NoDup (forest_members (buildTree scenario))
  ∧ ∀ m, m ∈ forest_members (buildTree scenario) ↔ anchored scenario m.
Proof.
  apply (buildTree_places_anchored_once scenario).
  - apply (bool_decide_unpack (NoDup (id <$> scenario))). vm_compute. exact I.
  - intros m Hm. unfold scenario in Hm.
    repeat (apply elem_of_cons in Hm as [->|Hm]; [discriminate|]).
    by apply elem_of_nil in Hm.
Defined.

(** C1 fails as stated: [mutual] has unique ids and no member without
    parent; the forest is empty, so neither member is placed. *)
Lemma mutual_parents_omitted :
  NoDup (id <$> mutual)
  ∧ buildTree mutual = []
  ∧ (mem "X" (Str "Y") Undefined ∉ forest_members (buildTree mutual)).
Proof.
  split; [|split].
  - unfold mutual. simpl. apply NoDup_cons. split.
    + intros H%list_elem_of_singleton. discriminate.
    + apply NoDup_singleton.
  - vm_compute. reflexivity.
  - vm_compute. apply not_elem_of_nil.
Qed.

(** Without the condition on ids a member can be placed twice: a member
    whose [parentId] is the empty string counts as parentless, and is also
    the child of a member whose id is the empty string. *)
Example empty_id_places_twice :
  forest_members (buildTree [mem "" Null Undefined; mem "x" (Str "") Undefined])
  = [mem "" Null Undefined; mem "x" (Str "") Undefined; mem "x" (Str "") Undefined].
Proof. vm_compute. reflexivity. Qed.

(** * Further properties of the component *)

(** ** Fetching *)

(** [fetchMembers] returns normally whatever the store answers, ends with
    the loading flag cleared, asks the store for at most one query, and
    changes neither the stored documents and assets nor the notifications,
    the timers, the selection or the deletion flags. *)
Theorem fetchMembers_frame faults auth w :
  fst (fetchMembers faults auth w) = Ret tt
  ∧ loading (ui (snd (fetchMembers faults auth w))) = false
  ∧ selectedMember (ui (snd (fetchMembers faults auth w))) = selectedMember (ui w)
  ∧ deletingMember (ui (snd (fetchMembers faults auth w))) = deletingMember (ui w)
  ∧ deleteSuccess (ui (snd (fetchMembers faults auth w))) = deleteSuccess (ui w)
  ∧ alerts (browser (snd (fetchMembers faults auth w))) = alerts (browser w)
  ∧ timers (browser (snd (fetchMembers faults auth w))) = timers (browser w)
  ∧ familyMembers (backend (snd (fetchMembers faults auth w))) = familyMembers (backend w)
  ∧ storage (backend (snd (fetchMembers faults auth w))) = storage (backend w)
  ∧ (calls (backend (snd (fetchMembers faults auth w))) = calls (backend w)
     ∨ calls (backend (snd (fetchMembers faults auth w))) = calls (backend w) ++ [GetDocs]).
Proof.
  unfold fetchMembers, getDocs. unfold_m.
  destruct (currentUser auth); simpl; [|by repeat split; auto].
  destruct (getDocs_error faults); simpl; repeat split; auto.
Qed.

Lemma fetchMembers_success faults auth w u :
  currentUser auth = Some u →
  getDocs_error faults = None →
  fetchMembers faults auth w =
    (Ret tt,
     mkWorld
       (mkComponent (member_of_doc <$> familyMembers (backend w)) (selectedMember (ui w))
                    false (deletingMember (ui w)) (deleteSuccess (ui w)))
       (browser w)
       (mkBackend (familyMembers (backend w)) (storage (backend w))
                  (calls (backend w) ++ [GetDocs]))).
Proof.
  intros Hu He. unfold fetchMembers, getDocs. rewrite Hu. unfold_m. simpl.
  rewrite He. simpl. by destruct w as [c b k].
Qed.

Lemma fetchMembers_no_user faults auth w :
  currentUser auth = None →
  fetchMembers faults auth w =
    (Ret tt,
     mkWorld (mkComponent (members (ui w)) (selectedMember (ui w)) false
                          (deletingMember (ui w)) (deleteSuccess (ui w)))
             (browser w) (backend w)).
Proof. intros Hu. unfold fetchMembers. rewrite Hu. reflexivity. Qed.

(** The effect on [currentUser] is [fetchMembers]: its own test of
    [currentUser] repeats the one [fetchMembers] makes. *)
Lemma effect_currentUser_fetchMembers faults auth w :
  effect_currentUser faults auth w = fetchMembers faults auth w.
Proof.
  unfold effect_currentUser.
  destruct (currentUser auth) eqn:Hu; [done|].
  by rewrite (fetchMembers_no_user _ _ _ Hu).
Qed.

(** [handleFormSuccess] never throws and always closes both editing
    surfaces, also when the refetch failed; the rest of the state is what
    [fetchMembers] leaves. *)
Theorem handleFormSuccess_closes_forms faults auth w f :
  handleFormSuccess faults auth w f
  = (Ret tt, snd (fetchMembers faults auth w), mkForms false None).
Proof.
  unfold handleFormSuccess.
  pose proof (fetchMembers_returns faults auth w) as Hr.
  destruct (fetchMembers faults auth w) as [[[]|e] w']; simpl in *; [done|done].
Qed.

(** ** Deleting *)

(** All that [deleteImageFromStorage] can change: it may log one error, and
    it may send one request to the asset store, which may remove objects. *)
Lemma deleteImageFromStorage_world rt faults url w :
  ∃ log cs objects,
    deleteImageFromStorage rt faults url w =
      (Ret tt,
       mkWorld (ui w)
               (mkBrowser (alerts (browser w)) (console (browser w) ++ log)
                          (timers (browser w)))
               (mkBackend (familyMembers (backend w)) objects (calls (backend w) ++ cs)))
    ∧ Forall (λ c, ∃ p, c = DeleteObject p) cs
    ∧ Forall (λ entry, entry.1 = "Error deleting image from storage:") log.
Proof.
  destruct w as [c [al co ti] [fm st ca]].
  unfold deleteImageFromStorage.
  destruct (bool_decide (url = "") || negb (includes "firebase" url)).
  { exists [], [], st. simpl. rewrite !app_nil_r. auto. }
  unfold deleteObject. unfold_m. simpl.
  destruct (URL_pathname rt url) as [pathname|]; simpl.
  2:{ eexists [_], [], st. rewrite !app_nil_r. repeat split; repeat constructor. }
  destruct (match_o_path pathname) as [g|]; simpl.
  2:{ exists [], [], st. rewrite !app_nil_r. auto. }
  destruct (decodeURIComponent rt g) as [imagePath|]; simpl.
  2:{ eexists [_], [], st. rewrite !app_nil_r. repeat split; repeat constructor. }
  destruct (deleteObject_error faults imagePath); simpl; [|case_decide; simpl].
  - eexists [_], [_], st. repeat split; repeat constructor. eauto.
  - eexists [], [_], _. rewrite app_nil_r. repeat split; repeat constructor. eauto.
  - eexists [_], [_], st. repeat split; repeat constructor. eauto.
Qed.

(** [deleteImageFromStorage] swallows every failure: an invalid URL, a
    malformed escape and an error of the asset store all end in a normal
    return, with the state of the component, the notifications, the timers
    and the stored documents as they were. *)
Theorem deleteImageFromStorage_swallows rt faults url w :
  fst (deleteImageFromStorage rt faults url w) = Ret tt
  ∧ ui (snd (deleteImageFromStorage rt faults url w)) = ui w
  ∧ alerts (browser (snd (deleteImageFromStorage rt faults url w))) = alerts (browser w)
  ∧ timers (browser (snd (deleteImageFromStorage rt faults url w))) = timers (browser w)
  ∧ familyMembers (backend (snd (deleteImageFromStorage rt faults url w)))
    = familyMembers (backend w).
Proof.
  destruct (deleteImageFromStorage_world rt faults url w) as (log & cs & st & -> & _).
  simpl. auto.
Qed.

Lemma deleteImageFromStorage_never_deletes_witness :
  backend (snd (deleteImageFromStorage sample_runtime no_faults photo_url
                  (world_of [ann_doc] ["images/ann.jpg"])))
  = backend (world_of [ann_doc] ["images/ann.jpg"]).
Proof.
  apply (deleteImageFromStorage_never_deletes sample_runtime no_faults photo_url
           (world_of [ann_doc] ["images/ann.jpg"])).
  exact sample_pathname_no_question.
Defined.

(** The step of [delete_effects] that cleans up the picture. *)
Lemma image_step_world rt faults (target : FamilyMember) w :
  ∃ log cs objects,
    (match imageUrl target with
     | Str url => if decide (url = "") then mret tt else deleteImageFromStorage rt faults url
     | _ => mret tt
     end) w =
      (Ret tt,
       mkWorld (ui w)
               (mkBrowser (alerts (browser w)) (console (browser w) ++ log)
                          (timers (browser w)))
               (mkBackend (familyMembers (backend w)) objects (calls (backend w) ++ cs)))
    ∧ Forall (λ c, ∃ p, c = DeleteObject p) cs
    ∧ Forall (λ entry, entry.1 = "Error deleting image from storage:") log.
Proof.
  assert (∃ log cs objects,
    (mret tt : M unit) w =
      (Ret tt,
       mkWorld (ui w)
               (mkBrowser (alerts (browser w)) (console (browser w) ++ log)
                          (timers (browser w)))
               (mkBackend (familyMembers (backend w)) objects (calls (backend w) ++ cs)))
    ∧ Forall (λ c, ∃ p, c = DeleteObject p) cs
    ∧ Forall (λ entry, entry.1 = "Error deleting image from storage:") log) as Hret.
  { destruct w as [c [al co ti] [fm st ca]]. exists [], [], st. simpl.
    rewrite !app_nil_r. auto. }
  destruct (imageUrl target) as [| |url]; try exact Hret.
  case_decide; [exact Hret|]. apply deleteImageFromStorage_world.
Qed.

Lemma spouse_step_skip (target : FamilyMember) (ms : list FamilyMember) (w : World) :
  (if decide (truthy (spouseId target)) then
     match List.find (λ m, bool_decide (Str (id m) = spouseId target)) ms with
     | Some spouse => mret tt
     | None => mret tt
     end
   else (mret tt : M unit)) w = (Ret tt, w).
Proof. case_decide; [|done]. by destruct (List.find _ ms). Qed.

(** The side-effect phase when the store accepts the deletion. *)
Lemma delete_effects_success rt faults ms target memberId w :
  deleteDoc_error faults memberId = None →
  ∃ log cs objects,
    delete_effects rt faults ms target memberId w =
      (Ret tt,
       mkWorld
         (mkComponent (members (ui w)) None (loading (ui w)) None true)
         (mkBrowser (alerts (browser w)) (console (browser w) ++ log)
                    (timers (browser w) ++ [(RefetchAfterDelete, 1500)]))
         (mkBackend (filter (λ d, doc_id d ≠ memberId) (familyMembers (backend w)))
                    objects (calls (backend w) ++ cs ++ [DeleteDoc memberId])))
    ∧ Forall (λ c, ∃ p, c = DeleteObject p) cs
    ∧ Forall (λ entry, entry.1 = "Error deleting image from storage:") log.
Proof.
  intros Hok. unfold delete_effects, deleteDoc.
  unfold mbind at 1. unfold M_bind at 1. unfold setDeletingMember at 1, modify at 1.
  unfold try_finally, try_catch.
  unfold mbind at 1. unfold M_bind at 1.
  match goal with |- context [ (match imageUrl target with | Str _ => _ | _ => _ end) ?w0 ] =>
    destruct (image_step_world rt faults target w0) as (log & cs & st & -> & Hcs & Hlog) end.
  unfold mbind at 1. unfold M_bind at 1. rewrite spouse_step_skip.
  rewrite Hok. unfold_m. unfold with_ui, with_browser, with_backend. simpl.
  exists log, cs, st. rewrite <- (assoc_L (++)). auto.
Qed.

(** The side-effect phase when the store refuses the deletion. *)
Lemma delete_effects_failure rt faults ms target memberId w e :
  deleteDoc_error faults memberId = Some e →
  ∃ log cs objects,
    delete_effects rt faults ms target memberId w =
      (Ret tt,
       mkWorld
         (mkComponent (members (ui w)) (selectedMember (ui w)) (loading (ui w)) None
                      (deleteSuccess (ui w)))
         (mkBrowser (alerts (browser w) ++ [delete_failed_msg])
                    (console (browser w) ++ log ++ [("Error deleting family member:", e)])
                    (timers (browser w)))
         (mkBackend (familyMembers (backend w))
                    objects (calls (backend w) ++ cs ++ [DeleteDoc memberId])))
    ∧ Forall (λ c, ∃ p, c = DeleteObject p) cs
    ∧ Forall (λ entry, entry.1 = "Error deleting image from storage:") log.
Proof.
  intros Hko. unfold delete_effects, deleteDoc.
  unfold mbind at 1. unfold M_bind at 1. unfold setDeletingMember at 1, modify at 1.
  unfold try_finally, try_catch.
  unfold mbind at 1. unfold M_bind at 1.
  match goal with |- context [ (match imageUrl target with | Str _ => _ | _ => _ end) ?w0 ] =>
    destruct (image_step_world rt faults target w0) as (log & cs & st & -> & Hcs & Hlog) end.
  unfold mbind at 1. unfold M_bind at 1. rewrite spouse_step_skip.
  rewrite Hko. unfold_m. unfold with_ui, with_browser, with_backend. simpl.
  exists log, cs, st. rewrite <- !(assoc_L (++)). auto.
Qed.

Lemma find_id_None (ms : list FamilyMember) memberId :
  (∀ m, m ∈ ms → id m ≠ memberId) →
  List.find (λ m, bool_decide (id m = memberId)) ms = None.
Proof.
  induction ms as [|m ms IH]; intros Hno; simpl; [done|].
  rewrite bool_decide_eq_false_2 by (apply Hno, list_elem_of_here).
  apply IH. intros m' Hm'. by apply Hno, list_elem_of_further.
Qed.

(** Asked to delete an id that no member of the in-memory collection has,
    [handleDeleteMember] does nothing at all: no notification, no request to
    the stores, no change of state. *)
Theorem handleDeleteMember_unknown_id rt faults auth memberId w :
  (∀ m, m ∈ members (ui w) → id m ≠ memberId) →
  handleDeleteMember rt faults auth memberId w = (Ret tt, w).
Proof.
  intros Hno. unfold handleDeleteMember, mbind, M_bind, gets.
  by rewrite (find_id_None _ _ Hno).
Qed.

Lemma handleDeleteMember_unknown_id_witness :
  handleDeleteMember sample_runtime no_faults admin "bob" (world_of [ann_doc] [])
  = (Ret tt, world_of [ann_doc] []).
Proof.
  apply (handleDeleteMember_unknown_id sample_runtime no_faults admin "bob"
           (world_of [ann_doc] [])).
  intros m Hm. simpl in Hm. apply list_elem_of_singleton in Hm as ->. discriminate.
Defined.

Lemma handleDeleteMember_effects rt faults auth w memberId target :
  List.find (λ m, bool_decide (id m = memberId)) (members (ui w)) = Some target →
  canDelete auth target = true →
  hasChildren (members (ui w)) memberId = false →
  handleDeleteMember rt faults auth memberId w
  = delete_effects rt faults (members (ui w)) target memberId w.
Proof.
  intros Hfind Hcan Hkids.
  rewrite (handleDeleteMember_found _ _ _ _ _ _ Hfind), Hcan. simpl.
  unfold delete_authorized. by rewrite Hkids.
Qed.

(** A permitted deletion of a childless member that the store accepts: the
    record leaves the store, the detail view is closed, no notification is
    raised, the refetch is scheduled 1500 ms later, and the component shows
    the success overlay whatever else its state holds. *)
Theorem handleDeleteMember_success rt faults auth w memberId target f :
  List.find (λ m, bool_decide (id m = memberId)) (members (ui w)) = Some target →
  canDelete auth target = true →
  hasChildren (members (ui w)) memberId = false →
  deleteDoc_error faults memberId = None →
  fst (handleDeleteMember rt faults auth memberId w) = Ret tt
  ∧ ui (snd (handleDeleteMember rt faults auth memberId w))
    = mkComponent (members (ui w)) None (loading (ui w)) None true
  ∧ alerts (browser (snd (handleDeleteMember rt faults auth memberId w)))
    = alerts (browser w)
  ∧ timers (browser (snd (handleDeleteMember rt faults auth memberId w)))
    = timers (browser w) ++ [(RefetchAfterDelete, 1500)]
  ∧ familyMembers (backend (snd (handleDeleteMember rt faults auth memberId w)))
    = filter (λ d, doc_id d ≠ memberId) (familyMembers (backend w))
  ∧ render auth (ui (snd (handleDeleteMember rt faults auth memberId w))) f
    = MemberDeleted.
Proof.
  intros Hfind Hcan Hkids Hok.
  rewrite (handleDeleteMember_effects _ _ _ _ _ _ Hfind Hcan Hkids).
  destruct (delete_effects_success rt faults (members (ui w)) target memberId w Hok)
    as (log & cs & st & -> & _). simpl. repeat split; auto.
Qed.

Lemma handleDeleteMember_success_witness :
  fst (handleDeleteMember sample_runtime no_faults admin "ann"
         (world_of [ann_doc] ["images/ann.jpg"])) = Ret tt
  ∧ ui (snd (handleDeleteMember sample_runtime no_faults admin "ann"
               (world_of [ann_doc] ["images/ann.jpg"])))
    = mkComponent [member_of_doc ann_doc] None false None true
  ∧ alerts (browser (snd (handleDeleteMember sample_runtime no_faults admin "ann"
                            (world_of [ann_doc] ["images/ann.jpg"]))))
    = []
  ∧ timers (browser (snd (handleDeleteMember sample_runtime no_faults admin "ann"
                            (world_of [ann_doc] ["images/ann.jpg"]))))
    = [] ++ [(RefetchAfterDelete, 1500)]
  ∧ familyMembers (backend (snd (handleDeleteMember sample_runtime no_faults admin "ann"
                                   (world_of [ann_doc] ["images/ann.jpg"]))))
    = filter (λ d, doc_id d ≠ "ann") [ann_doc]
  ∧ render admin (ui (snd (handleDeleteMember sample_runtime no_faults admin "ann"
                             (world_of [ann_doc] ["images/ann.jpg"])))) initial_forms
    = MemberDeleted.
Proof.
  apply (handleDeleteMember_success sample_runtime no_faults admin
           (world_of [ann_doc] ["images/ann.jpg"]) "ann" (member_of_doc ann_doc)
           initial_forms); reflexivity.
Defined.

(** A permitted deletion of a childless member that the store refuses: the
    handler still returns normally; the user gets the failure notification
    and the error is logged last; the stored documents, the selection, the
    success flag and the timers are as before, and the deletion overlay is
    cleared. *)
Theorem handleDeleteMember_store_failure rt faults auth w memberId target e :
  List.find (λ m, bool_decide (id m = memberId)) (members (ui w)) = Some target →
  canDelete auth target = true →
  hasChildren (members (ui w)) memberId = false →
  deleteDoc_error faults memberId = Some e →
  fst (handleDeleteMember rt faults auth memberId w) = Ret tt
  ∧ ui (snd (handleDeleteMember rt faults auth memberId w))
    = mkComponent (members (ui w)) (selectedMember (ui w)) (loading (ui w)) None
                  (deleteSuccess (ui w))
  ∧ alerts (browser (snd (handleDeleteMember rt faults auth memberId w)))
    = alerts (browser w) ++ [delete_failed_msg]
  ∧ last (console (browser (snd (handleDeleteMember rt faults auth memberId w))))
    = Some ("Error deleting family member:", e)
  ∧ timers (browser (snd (handleDeleteMember rt faults auth memberId w)))
    = timers (browser w)
  ∧ familyMembers (backend (snd (handleDeleteMember rt faults auth memberId w)))
    = familyMembers (backend w).
Proof.
  intros Hfind Hcan Hkids Hko.
  rewrite (handleDeleteMember_effects _ _ _ _ _ _ Hfind Hcan Hkids).
  destruct (delete_effects_failure rt faults (members (ui w)) target memberId w e Hko)
    as (log & cs & st & -> & _). simpl.
  repeat split; auto. by rewrite (assoc_L (++)), last_snoc.
Qed.

Lemma handleDeleteMember_store_failure_witness :
  fst (handleDeleteMember sample_runtime store_down admin "ann" (world_of [ann_doc] []))
  = Ret tt
  ∧ ui (snd (handleDeleteMember sample_runtime store_down admin "ann"
               (world_of [ann_doc] [])))
    = mkComponent [member_of_doc ann_doc] None false None false
  ∧ alerts (browser (snd (handleDeleteMember sample_runtime store_down admin "ann"
                            (world_of [ann_doc] []))))
    = [] ++ [delete_failed_msg]
  ∧ last (console (browser (snd (handleDeleteMember sample_runtime store_down admin "ann"
                                  (world_of [ann_doc] [])))))
    = Some ("Error deleting family member:", "unavailable")
  ∧ timers (browser (snd (handleDeleteMember sample_runtime store_down admin "ann"
                            (world_of [ann_doc] []))))
    = []
  ∧ familyMembers (backend (snd (handleDeleteMember sample_runtime store_down admin "ann"
                                   (world_of [ann_doc] []))))
    = [ann_doc].
Proof.
  apply (handleDeleteMember_store_failure sample_runtime store_down admin
           (world_of [ann_doc] []) "ann" (member_of_doc ann_doc) "unavailable");
    reflexivity.
Defined.

(** The deletion overlay never outlives the handler: started without it,
    [handleDeleteMember] ends without it, on every path. *)
Theorem handleDeleteMember_clears_overlay rt faults auth w memberId f :
  deletingMember (ui w) = None →
  deletingMember (ui (snd (handleDeleteMember rt faults auth memberId w))) = None
  ∧ render auth (ui (snd (handleDeleteMember rt faults auth memberId w))) f
    ≠ DeletingMember.
Proof.
  intros Hnone.
  assert (deletingMember (ui (snd (handleDeleteMember rt faults auth memberId w))) = None)
    as Hafter.
  { destruct (List.find (λ m, bool_decide (id m = memberId)) (members (ui w)))
      as [target|] eqn:Hfind.
    - rewrite (handleDeleteMember_found _ _ _ _ _ _ Hfind).
      destruct (canDelete auth target); simpl; [|done].
      unfold delete_authorized. destruct (hasChildren _ _); [done|].
      destruct (deleteDoc_error faults memberId) as [e|] eqn:He.
      + by destruct (delete_effects_failure rt faults (members (ui w)) target memberId w e He)
          as (log & cs & st & -> & _).
      + by destruct (delete_effects_success rt faults (members (ui w)) target memberId w He)
          as (log & cs & st & -> & _).
    - unfold handleDeleteMember, mbind, M_bind, gets. by rewrite Hfind. }
  split; [done|]. unfold render. rewrite Hafter.
  destruct (deleteSuccess _); [done|]. destruct (loading _); [done|].
  by destruct (currentUser auth).
Qed.

Lemma handleDeleteMember_clears_overlay_witness :
  deletingMember (ui (snd (handleDeleteMember sample_runtime store_down stranger "ann"
                             (world_of [ann_doc] [])))) = None
  ∧ render stranger (ui (snd (handleDeleteMember sample_runtime store_down stranger "ann"
                                (world_of [ann_doc] [])))) initial_forms
    ≠ DeletingMember.
Proof.
  apply (handleDeleteMember_clears_overlay sample_runtime store_down stranger
           (world_of [ann_doc] []) "ann" initial_forms).
  reflexivity.
Defined.

(** A document whose data stores an [id] field other than the document id is
    shown under the stored id, so a deletion requested for the member it
    shows is addressed to another document and leaves this one in the
    store. *)
Theorem delete_by_shadowed_id_keeps_document rt faults auth w d i :
  d ∈ familyMembers (backend w) →
  data_id d = Some i →
  doc_id d ≠ i →
  id (member_of_doc d) = i
  ∧ d ∈ familyMembers (backend (snd (handleDeleteMember rt faults auth
                                       (id (member_of_doc d)) w))).
Proof.
  intros Hd Hi Hne.
  assert (id (member_of_doc d) = i) as Hid by (unfold member_of_doc; simpl; by rewrite Hi).
  split; [done|]. rewrite Hid.
  destruct (handleDeleteMember_effect rt faults auth i w)
    as (w' & l & -> & _ & _ & _ & [Hf | Hf]); simpl; rewrite Hf; [done|].
  apply list_elem_of_filter. auto.
Qed.

Lemma delete_by_shadowed_id_keeps_document_witness :
  id (member_of_doc shadowed_doc) = "m7"
  ∧ shadowed_doc
    ∈ familyMembers (backend (snd (handleDeleteMember sample_runtime no_faults admin
                                     (id (member_of_doc shadowed_doc))
                                     (world_of [shadowed_doc] [])))).
Proof.
  apply (delete_by_shadowed_id_keeps_document sample_runtime no_faults admin
           (world_of [shadowed_doc] []) shadowed_doc "m7").
  - simpl. apply list_elem_of_here.
  - reflexivity.
  - discriminate.
Defined.

(** Deletion followed by the scheduled refetch, with the store answering
    both: the in-memory collection becomes the stored documents without the
    deleted one, the success overlay and the loading flag are cleared, and a
    member still shown under the deleted id comes from a document that
    stores that id in its data. *)
Theorem delete_then_refetch rt faults auth w memberId target u :
  List.find (λ m, bool_decide (id m = memberId)) (members (ui w)) = Some target →
  canDelete auth target = true →
  hasChildren (members (ui w)) memberId = false →
  deleteDoc_error faults memberId = None →
  getDocs_error faults = None →
  currentUser auth = Some u →
  members (ui (snd (run_timer faults auth RefetchAfterDelete
                      (snd (handleDeleteMember rt faults auth memberId w)))))
  = member_of_doc <$> filter (λ d, doc_id d ≠ memberId) (familyMembers (backend w))
  ∧ deleteSuccess (ui (snd (run_timer faults auth RefetchAfterDelete
                              (snd (handleDeleteMember rt faults auth memberId w)))))
    = false
  ∧ loading (ui (snd (run_timer faults auth RefetchAfterDelete
                        (snd (handleDeleteMember rt faults auth memberId w)))))
    = false
  ∧ ∀ m, m ∈ members (ui (snd (run_timer faults auth RefetchAfterDelete
                                 (snd (handleDeleteMember rt faults auth memberId w))))) →
         id m = memberId →
         ∃ d, d ∈ familyMembers (backend w) ∧ data_id d = Some memberId.
Proof.
  intros Hfind Hcan Hkids Hok Hget Hu.
  rewrite (handleDeleteMember_effects _ _ _ _ _ _ Hfind Hcan Hkids).
  destruct (delete_effects_success rt faults (members (ui w)) target memberId w Hok)
    as (log & cs & st & -> & _). simpl.
  unfold mbind, M_bind. rewrite (fetchMembers_success _ _ _ _ Hu Hget). simpl.
  repeat split; auto.
  intros m Hm Hid. apply list_elem_of_fmap in Hm as (d & -> & Hd).
  apply list_elem_of_filter in Hd as [Hne Hd]. exists d. split; [done|].
  unfold member_of_doc in Hid. simpl in Hid.
  destruct (data_id d) as [i|]; simpl in Hid; [by rewrite Hid|done].
Qed.

Lemma delete_then_refetch_witness :
  members (ui (snd (run_timer no_faults admin RefetchAfterDelete
                      (snd (handleDeleteMember sample_runtime no_faults admin "ann"
                              (world_of [ann_married_doc; bea_doc] []))))))
  = member_of_doc <$> filter (λ d, doc_id d ≠ "ann") [ann_married_doc; bea_doc]
  ∧ deleteSuccess (ui (snd (run_timer no_faults admin RefetchAfterDelete
                              (snd (handleDeleteMember sample_runtime no_faults admin "ann"
                                      (world_of [ann_married_doc; bea_doc] []))))))
    = false
  ∧ loading (ui (snd (run_timer no_faults admin RefetchAfterDelete
                        (snd (handleDeleteMember sample_runtime no_faults admin "ann"
                                (world_of [ann_married_doc; bea_doc] []))))))
    = false
  ∧ ∀ m, m ∈ members (ui (snd (run_timer no_faults admin RefetchAfterDelete
                                 (snd (handleDeleteMember sample_runtime no_faults admin "ann"
                                         (world_of [ann_married_doc; bea_doc] [])))))) →
         id m = "ann" →
         ∃ d, d ∈ familyMembers (backend (world_of [ann_married_doc; bea_doc] []))
              ∧ data_id d = Some "ann".
Proof.
  apply (delete_then_refetch sample_runtime no_faults admin
           (world_of [ann_married_doc; bea_doc] []) "ann"
           (member_of_doc ann_married_doc) "u0"); reflexivity.
Defined.

(** Without a profile only records that have no [createdBy] at all can be
    deleted: a [createdBy] that is null or any string is never strictly equal
    to the absent uid. *)
Theorem canDelete_absent_profile auth target :
  userData auth = None →
  (canDelete auth target = true ↔ createdBy target = Undefined).
Proof.
  intros Hnone. unfold canDelete. rewrite Hnone. simpl.
  rewrite bool_decide_eq_true. split; congruence.
Qed.

Lemma canDelete_absent_profile_witness :
  canDelete (mkAuth (Some "u2") None) (member_of_doc ann_doc) = true
  ↔ createdBy (member_of_doc ann_doc) = Undefined.
Proof.
  apply (canDelete_absent_profile (mkAuth (Some "u2") None) (member_of_doc ann_doc)).
  reflexivity.
Defined.

(** ** The shape of the forest *)

Lemma TreeNode_forall_ind (P : TreeNode → Prop) :
  (∀ m cs s, Forall P cs → P (mkTreeNode m cs s)) → ∀ t, P t.
Proof.
  intros Hnode. fix IH 1. intros [m cs s]. apply Hnode.
  induction cs as [|c cs IHcs]; constructor; [apply IH|exact IHcs].
Qed.

Lemma forest_nodes_cons t ts :
  forest_nodes (t :: ts) = tree_nodes t ++ forest_nodes ts.
Proof. reflexivity. Qed.

Lemma tree_nodes_unfold t : tree_nodes t = t :: forest_nodes (children t).
Proof. by destruct t. Qed.

Lemma forest_nodes_members ts : member <$> forest_nodes ts = forest_members ts.
Proof.
  induction ts as [|t ts IH]; [done|].
  rewrite forest_nodes_cons, forest_members_cons, fmap_app, IH. f_equal.
  clear IH ts. induction t as [m cs s IHcs] using TreeNode_forall_ind.
  rewrite tree_nodes_unfold, tree_members_unfold, fmap_cons. simpl. f_equal.
  induction IHcs as [|c cs Hc _ IH]; [done|].
  by rewrite forest_nodes_cons, forest_members_cons, fmap_app, Hc, IH.
Qed.

Lemma buildNode_spouse ms fuel m p t p' :
  buildNode ms fuel m p = Some (t, p') → spouse t = resolve_spouse ms m.
Proof.
  destruct fuel as [|fuel]; simpl; [done|].
  destruct (map_st _ _ p) as [[cs p1]|]; [|done]. by intros [= <- _].
Qed.

Lemma buildNode_linked ms fuel m p t p' :
  m ∈ ms → buildNode ms fuel m p = Some (t, p') → Forall (node_linked ms) (tree_nodes t).
Proof.
  revert m p t p'. induction fuel as [|fuel IH]; intros m p t p' Hm Ht; [done|].
  pose proof (buildNode_member _ _ _ _ _ _ Ht) as Hmt.
  pose proof (buildNode_spouse _ _ _ _ _ _ Ht) as Hsp.
  apply buildNode_children in Ht.
  pose proof (map_st_members _ _ (λ x q y q', buildNode_member ms fuel x _ y q') _ _ _ Ht)
    as Hcs.
  rewrite tree_nodes_unfold. constructor.
  - rewrite <- Hmt in Hm, Hsp. repeat split; [done|done| |].
    + apply Forall_forall. intros c Hc.
      assert (member c ∈ unplaced_children ms m p) as Hin
        by (rewrite <- Hcs; apply list_elem_of_fmap; eauto).
      apply unplaced_children_spec in Hin as [[Hp _] Hin]. by rewrite Hmt.
    + rewrite Hcs. apply sublist_filter.
  - unfold forest_nodes. apply Forall_concat, Forall_fmap.
    eapply map_st_Forall; [|exact Ht].
    intros c q y q' Hc Hy. simpl. eapply IH; [|exact Hy].
    apply unplaced_children_spec in Hc. tauto.
Qed.

Lemma buildTree_linked (ms : list FamilyMember) :
  Forall (node_linked ms) (forest_nodes (buildTree ms)).
Proof.
  destruct (buildTree_loop ms) as [p' H].
  unfold forest_nodes. apply Forall_concat, Forall_fmap.
  eapply map_st_Forall; [|exact H].
  intros r q y q' Hr Hy. simpl. eapply (buildNode_linked ms); [|exact Hy].
  apply root_members_spec in Hr. tauto.
Qed.

(** For every collection, whatever its ids, every node of the forest holds
    a member of the collection with the spouse [resolve_spouse] finds for
    it, and its children are members of the collection that name it as
    parent, in the order of the collection. *)
Theorem buildTree_nodes_linked (ms : list FamilyMember) :
  Forall (λ n,
            member n ∈ ms
            ∧ spouse n = resolve_spouse ms (member n)
            ∧ Forall (λ c, member c ∈ ms ∧ parentId (member c) = Str (id (member n)))
                     (children n)
            ∧ (member <$> children n) `sublist_of` ms)
         (forest_nodes (buildTree ms)).
Proof. apply buildTree_linked. Qed.


(** ** Spouses *)

Lemma memberMap_foldl (ms : list FamilyMember) (acc : gmap string FamilyMember) i :
  foldl (λ acc m, <[id m := m]> acc) acc ms !! i
  = match last (filter (λ m, id m = i) ms) with
    | Some m => Some m
    | None => acc !! i
    end.
Proof.
  revert acc. induction ms as [|m ms IH]; intros acc; simpl; [done|].
  rewrite IH, filter_cons. case_decide as Hid.
  - rewrite last_cons. destruct (last (filter _ ms)); [done|].
    by rewrite <- Hid, lookup_insert_eq.
  - destruct (last (filter _ ms)); [done|]. by rewrite lookup_insert_ne.
Qed.

(** [memberMap] holds, for an id, the last member of the collection with
    that id. *)
Lemma memberMap_lookup (ms : list FamilyMember) i :
  memberMap ms !! i = last (filter (λ m, id m = i) ms).
Proof.
  unfold memberMap. rewrite memberMap_foldl.
  by destruct (last (filter _ ms)).
Qed.

(** The spouse attached to a node is the last member of the collection
    whose id is the node's [spouseId]; there is none exactly when the
    [spouseId] is absent, null or empty, or is the id of no member. *)
Theorem buildTree_spouses (ms : list FamilyMember) :
  Forall (λ n,
            (∀ i, spouseId (member n) = Str i → i ≠ "" →
                  spouse n = last (filter (λ m, id m = i) ms))
            ∧ (∀ s, spouse n = Some s →
                    s ∈ ms ∧ spouseId (member n) = Str (id s) ∧ id s ≠ "")
            ∧ (spouse n = None ↔
                 ¬ truthy (spouseId (member n))
                 ∨ ∀ q, q ∈ ms → spouseId (member n) ≠ Str (id q)))
         (forest_nodes (buildTree ms)).
Proof.
  eapply Forall_impl; [apply (buildTree_linked ms)|].
  intros n (_ & Hsp & _). rewrite Hsp. unfold resolve_spouse. clear Hsp.
  destruct (spouseId (member n)) as [| |i]; simpl.
  - split; [done|]. split; [done|]. split; [intros _; left; tauto|done].
  - split; [done|]. split; [done|]. split; [intros _; left; tauto|done].
  - case_decide as Hi.
    + split; [by intros ? [= <-] ?|]. split; [done|].
      split; [intros _; left; tauto|done].
    + rewrite memberMap_lookup. split; [|split].
      * by intros ? [= <-] _.
      * intros s Hs. apply last_Some in Hs as [l' Hl'].
        assert (s ∈ filter (λ m, id m = i) ms) as Hin
          by (rewrite Hl'; apply elem_of_app; right; apply list_elem_of_here).
        apply list_elem_of_filter in Hin as [<- Hin]. auto.
      * split.
        -- intros Hnone. right. intros q Hq [= Hiq].
           assert (q ∈ filter (λ m, id m = i) ms) as Hin
             by (apply list_elem_of_filter; auto).
           destruct (filter _ ms) as [|x l]; [by apply elem_of_nil in Hin|].
           rewrite last_cons in Hnone. by destruct (last l).
        -- intros [Hf|Hno]; [done|].
           destruct (last (filter _ ms)) as [s|] eqn:Hs; [|done]. exfalso.
           apply last_Some in Hs as [l' Hl'].
           assert (s ∈ filter (λ m, id m = i) ms) as Hin
             by (rewrite Hl'; apply elem_of_app; right; apply list_elem_of_here).
           apply list_elem_of_filter in Hin as [<- Hin]. by apply (Hno s).
Qed.

(** ** Families without broken references *)

Lemma anchored_perm ms ms' m : ms ≡ₚ ms' → anchored ms m → anchored ms' m.
Proof.
  intros Hp. induction 1 as [m Hm Hf|m q Hm _ IH Hq].
  - apply anchored_root; [by rewrite <- Hp|done].
  - eapply anchored_child; [by rewrite <- Hp|exact IH|done].
Qed.

Lemma buildTree_NoDup (ms : list FamilyMember) :
  NoDup (id <$> ms) → (∀ m, m ∈ ms → id m ≠ "") →
  NoDup (forest_members (buildTree ms)).
Proof.
  intros Hu Hne. destruct (buildTree_ok ms Hu Hne) as [p' Hok].
  eapply NoDup_fmap_1, (ok_NoDup _ _ _ _ _ Hok).
Qed.

(** When ids are unique and non-empty and every member is anchored, the
    forest is a rearrangement of the collection: every member is placed
    exactly once and nothing else is. *)
Theorem buildTree_whole_family (ms : list FamilyMember) :
  NoDup (id <$> ms) →
  (∀ m, m ∈ ms → id m ≠ "") →
  (∀ m, m ∈ ms → anchored ms m) →
  forest_members (buildTree ms) ≡ₚ ms.
Proof.
  intros Hu Hne Hall. apply NoDup_Permutation.
  - by apply buildTree_NoDup.
  - by eapply NoDup_fmap_1.
  - intros m. split.
    + intros Hm. apply anchored_elem.
      by apply (proj1 (Forall_forall _ _) (buildTree_anchored ms)).
    + intros Hm. by apply anchored_placed, Hall.
Qed.

Lemma scenario_anchored m : m ∈ scenario → anchored scenario m.
Proof.
  assert (anchored scenario (mem "A" Null Undefined)) as HA.
  { apply anchored_root; [apply list_elem_of_here|]. simpl. tauto. }
  unfold scenario at 1. intros Hm.
  apply elem_of_cons in Hm as [->|Hm]; [exact HA|].
  apply elem_of_cons in Hm as [->|Hm].
  { eapply anchored_child; [|exact HA|reflexivity].
    apply list_elem_of_further, list_elem_of_here. }
  apply elem_of_cons in Hm as [->|Hm].
  { eapply anchored_child; [|exact HA|reflexivity].
    do 2 apply list_elem_of_further. apply list_elem_of_here. }
  apply list_elem_of_singleton in Hm as ->.
  apply anchored_root; [|simpl; tauto].
  do 3 apply list_elem_of_further. apply list_elem_of_here.
Qed.

Lemma scenario_ids_nonempty m : m ∈ scenario → id m ≠ "".
Proof.
  unfold scenario. intros Hm.
  repeat (apply elem_of_cons in Hm as [->|Hm]; [discriminate|]).
  by apply elem_of_nil in Hm.
Qed.

Lemma buildTree_whole_family_witness :
  forest_members (buildTree scenario) ≡ₚ scenario.
Proof.
  apply (buildTree_whole_family scenario).
  - apply (bool_decide_unpack (NoDup (id <$> scenario))). vm_compute. exact I.
  - exact scenario_ids_nonempty.
  - exact scenario_anchored.
Defined.

(** With unique, non-empty ids the members that are placed do not depend on
    the order in which the collection arrives: two orders of one collection
    give forests with the same members. *)
Theorem buildTree_order_independent (ms ms' : list FamilyMember) :
  NoDup (id <$> ms) →
  (∀ m, m ∈ ms → id m ≠ "") →
  ms ≡ₚ ms' →
  forest_members (buildTree ms) ≡ₚ forest_members (buildTree ms').
Proof.
  intros Hu Hne Hp.
  assert (NoDup (id <$> ms')) as Hu' by (by rewrite <- Hp).
  assert (∀ m, m ∈ ms' → id m ≠ "") as Hne'
    by (intros m Hm; apply Hne; by rewrite Hp).
  apply NoDup_Permutation; [by apply buildTree_NoDup|by apply buildTree_NoDup|].
  intros m. split; intros Hm.
  - apply anchored_placed; [done|done|]. apply (anchored_perm ms); [done|].
    by apply (proj1 (Forall_forall _ _) (buildTree_anchored ms)).
  - apply anchored_placed; [done|done|]. apply (anchored_perm ms'); [done|].
    by apply (proj1 (Forall_forall _ _) (buildTree_anchored ms')).
Qed.

Lemma buildTree_order_independent_witness :
  forest_members (buildTree scenario) ≡ₚ forest_members (buildTree (reverse scenario)).
Proof.
  apply (buildTree_order_independent scenario (reverse scenario)).
  - apply (bool_decide_unpack (NoDup (id <$> scenario))). vm_compute. exact I.
  - exact scenario_ids_nonempty.
  - symmetry. apply reverse_Permutation.
Defined.

(** The forest is empty exactly when every member has a non-empty
    [parentId]. *)
Lemma buildTree_nil_iff (ms : list FamilyMember) :
  buildTree ms = [] ↔ ∀ m, m ∈ ms → truthy (parentId m).
Proof.
  pose proof (buildTree_roots ms) as Hr. split.
  - intros Hnil m Hm. rewrite Hnil in Hr. simpl in Hr.
    destruct (decide (truthy (parentId m))) as [|Hf]; [done|].
    assert (m ∈ filter (λ r, ¬ truthy (parentId r)) ms) as Hin
      by (by apply list_elem_of_filter).
    rewrite <- Hr in Hin. by apply elem_of_nil in Hin.
  - intros Hall. destruct (buildTree ms) as [|t ts]; [done|]. exfalso.
    assert (member t ∈ filter (λ r, ¬ truthy (parentId r)) ms) as Hin
      by (rewrite <- Hr; rewrite fmap_cons; apply list_elem_of_here).
    apply list_elem_of_filter in Hin as [Hf Hin]. by apply Hf, Hall.
Qed.

(** ** No child is left behind *)

Lemma filter_ext_in {A : Type} (P Q : A → Prop) `{!∀ x, Decision (P x)}
    `{!∀ x, Decision (Q x)} (l : list A) :
  (∀ x, x ∈ l → (P x ↔ Q x)) → filter P l = filter Q l.
Proof.
  induction l as [|x l IH]; intros Hpq; [done|].
  rewrite !filter_cons.
  assert (filter P l = filter Q l) as ->
    by (apply IH; intros y Hy; apply Hpq; by apply list_elem_of_further).
  pose proof (Hpq x (list_elem_of_here _ _)) as Hx.
  repeat case_decide; tauto.
Qed.

Section all_children.
Context (ms : list FamilyMember).
Hypothesis ids_unique : NoDup (id <$> ms).

(** A member that is not yet marked stays unmarked while the tree of
    another member is built, unless its own parent is in that tree. *)
Lemma fresh_after k p t p1 k2 :
  forest_ok ms [k] p [t] p1 →
  k2 ∈ ms → id k2 ∉ p → id k2 ≠ id k →
  (∀ q, q ∈ ms → parentId k2 = Str (id q) → id q ∈ p) →
  id k2 ∉ p1.
Proof.
  intros [Hr He Hp Hn Hf Hpar Hc] Hk2 Hk2p Hne Hbase.
  rewrite Hp, not_elem_of_union. split; [done|].
  rewrite elem_of_idset. intros (d & Hd & Hid).
  assert (d = k2) as -> by (apply (unique_id ms); auto).
  destruct (Hpar k2 Hd) as [Hk2k|(q & Hq & Hpq)].
  - apply list_elem_of_singleton in Hk2k. by subst.
  - apply (Hf q Hq). apply Hbase; [by apply He|done].
Qed.

(** A loop of the builder keeps [processed] closed under parents. *)
Lemma parents_in_after l p ts p' :
  forest_ok ms l p ts p' →
  parents_in ms p →
  (∀ k q, k ∈ l → q ∈ ms → parentId k = Str (id q) → id q ∈ p) →
  parents_in ms p'.
Proof.
  intros [Hr He Hp Hn Hf Hpar Hc] Hin Hbase c q Hcms Hq Hpq.
  rewrite Hp, !elem_of_union. intros [Hcp|Hcf].
  - left. by apply (Hin c q).
  - apply elem_of_idset in Hcf as (d & Hd & Hid).
    assert (d = c) as -> by (apply (unique_id ms); auto).
    destruct (Hpar c Hd) as [Hcl|(q' & Hq' & Hpq')].
    + left. by apply (Hbase c q).
    + right. apply elem_of_idset. exists q'. split; [done|]. congruence.
Qed.

Lemma loop_all_children
    (f : FamilyMember → gset string → option (TreeNode * gset string)) :
  (∀ k p t p', k ∈ ms → id k ∉ p → f k p = Some (t, p') → forest_ok ms [k] p [t] p') →
  (∀ k p t p', k ∈ ms → id k ∉ p → parents_in ms p →
               (∀ q, q ∈ ms → parentId k = Str (id q) → id q ∈ p) →
               f k p = Some (t, p') → Forall (all_children ms) (tree_nodes t)) →
  ∀ l p ts p',
    (∀ k, k ∈ l → k ∈ ms) →
    NoDup (id <$> l) →
    (∀ k, k ∈ l → id k ∉ p) →
    parents_in ms p →
    (∀ k q, k ∈ l → q ∈ ms → parentId k = Str (id q) → id q ∈ p) →
    map_st f l p = Some (ts, p') →
    Forall (all_children ms) (forest_nodes ts).
Proof.
  intros Hok Hall. induction l as [|k l IH];
    intros p ts p' Hin Hnd Hfresh Hpar Hbase; simpl.
  - intros [= <- _]. constructor.
  - destruct (f k p) as [[t p1]|] eqn:Hk; [|done].
    destruct (map_st f l p1) as [[ts' p2]|] eqn:Hl; [|done].
    intros [= <- _].
    assert (k ∈ ms) as Hkms by (apply Hin, list_elem_of_here).
    assert (id k ∉ p) as Hkp by (apply Hfresh, list_elem_of_here).
    pose proof (Hok k p t p1 Hkms Hkp Hk) as Hfo.
    rewrite fmap_cons in Hnd. apply NoDup_cons in Hnd as [Hkl Hndl].
    rewrite forest_nodes_cons. apply Forall_app. split.
    + eapply Hall; eauto. intros q Hq Hpq.
      eapply Hbase; [apply list_elem_of_here|done|done].
    + assert (p ⊆ p1) as Hpp1
        by (rewrite (ok_processed _ _ _ _ _ Hfo); apply union_subseteq_l).
      eapply (IH p1); [| | | | |exact Hl].
      * intros k2 Hk2. apply Hin. by apply list_elem_of_further.
      * done.
      * intros k2 Hk2. eapply fresh_after; [exact Hfo| | | |].
        -- apply Hin. by apply list_elem_of_further.
        -- apply Hfresh. by apply list_elem_of_further.
        -- intros Heq. apply Hkl. rewrite <- Heq. apply list_elem_of_fmap. eauto.
        -- intros q Hq Hpq. eapply Hbase; [by apply list_elem_of_further|done|done].
      * eapply parents_in_after; [exact Hfo|done|].
        intros k' q Hk' Hq Hpq. apply list_elem_of_singleton in Hk' as ->.
        eapply Hbase; [apply list_elem_of_here|done|done].
      * intros k2 q Hk2 Hq Hpq. apply Hpp1.
        eapply Hbase; [by apply list_elem_of_further|done|done].
Qed.

Lemma node_all_children fuel k p t p' :
  k ∈ ms → id k ∉ p → parents_in ms p →
  (∀ q, q ∈ ms → parentId k = Str (id q) → id q ∈ p) →
  buildNode ms fuel k ({[id k]} ∪ p) = Some (t, p') →
  Forall (all_children ms) (tree_nodes t).
Proof.
  revert k p t p'. induction fuel as [|fuel IH];
    intros k p t p' Hk Hkp Hpar Hbase Ht; [done|].
  pose proof (buildNode_member _ _ _ _ _ _ Ht) as Hmt.
  pose proof (node_ok ms ids_unique _ _ _ _ _ Hk Hkp Ht) as Hfo.
  apply buildNode_children in Ht.
  assert (unplaced_children ms k ({[id k]} ∪ p)
          = filter (λ c, parentId c = Str (id k)) ms) as Hkids.
  { unfold unplaced_children. apply filter_ext_in. intros c Hc.
    split; [tauto|]. intros Hpc. split; [done|].
    rewrite not_elem_of_union, elem_of_singleton. split.
    - intros Hid. assert (c = k) as -> by (apply (unique_id ms); auto).
      apply Hkp. by apply Hbase.
    - intros Hcp. apply Hkp. by apply (Hpar c k). }
  assert (id k ∈ {[id k]} ∪ p) as HkP
    by (apply elem_of_union_l; by apply elem_of_singleton).
  rewrite tree_nodes_unfold. constructor.
  - unfold all_children. rewrite Hmt, <- Hkids.
    eapply map_st_members; [|exact Ht].
    intros x q y q'. apply buildNode_member.
  - eapply (loop_all_children _ (node_ok ms ids_unique fuel) IH); [| | | | |exact Ht].
    + intros c Hc. apply unplaced_children_spec in Hc. tauto.
    + unfold unplaced_children. by apply NoDup_id_filter.
    + intros c Hc. apply unplaced_children_spec in Hc. tauto.
    + intros c q Hc Hq Hpq. rewrite !elem_of_union, elem_of_singleton.
      intros [Hid|Hcp].
      * assert (c = k) as -> by (apply (unique_id ms); auto).
        right. by apply Hbase.
      * right. by apply (Hpar c q).
    + intros c q Hc Hq Hpq. apply unplaced_children_spec in Hc as [[Hpc _] _].
      rewrite Hpc in Hpq. injection Hpq as Hid. by rewrite <- Hid.
Qed.
End all_children.

(** With unique, non-empty ids every node of the forest has as children all
    the members that name it as parent, in the order of the collection:
    once a member is placed, none of its children is missing below it. *)
Theorem buildTree_all_children (ms : list FamilyMember) :
  NoDup (id <$> ms) →
  (∀ m, m ∈ ms → id m ≠ "") →
  Forall (λ n, member <$> children n
               = filter (λ c, parentId c = Str (id (member n))) ms)
         (forest_nodes (buildTree ms)).
Proof.
  intros Hu Hne. destruct (buildTree_loop ms) as [p' H].
  eapply (loop_all_children ms Hu _ (node_ok ms Hu (S (length ms)))
            (node_all_children ms Hu (S (length ms)))); [| | | | |exact H].
  - intros r Hr. apply root_members_spec in Hr. tauto.
  - unfold root_members. by apply NoDup_id_filter.
  - intros r _. apply not_elem_of_empty.
  - intros c q _ _ _ Hc. by apply elem_of_empty in Hc.
  - intros r q Hr Hq Hpq. apply root_members_spec in Hr as [Hfalsy _].
    rewrite Hpq in Hfalsy. simpl in Hfalsy. exfalso. apply Hfalsy. by apply Hne.
Qed.

Lemma buildTree_all_children_witness :
  Forall (λ n, member <$> children n
               = filter (λ c, parentId c = Str (id (member n))) scenario)
         (forest_nodes (buildTree scenario)).
Proof.
  apply (buildTree_all_children scenario).
  - apply (bool_decide_unpack (NoDup (id <$> scenario))). vm_compute. exact I.
  - exact scenario_ids_nonempty.
Defined.

(** ** What the component shows *)

Lemma fetchMembers_failure_members faults auth w u e :
  currentUser auth = Some u →
  getDocs_error faults = Some e →
  ui (snd (fetchMembers faults auth w))
  = mkComponent (members (ui w)) (selectedMember (ui w)) false
                (deletingMember (ui w)) (deleteSuccess (ui w)).
Proof.
  intros Hu He. unfold fetchMembers. rewrite Hu.
  unfold try_finally, try_catch. unfold mbind at 1. unfold M_bind.
  by rewrite (getDocs_failure _ _ _ He).
Qed.

(** The first load.  Without a user the component asks to log in; with a
    user and a store that fails it shows the empty state, with neither an
    error nor a spinner; with a store that answers it shows the page for the
    fetched collection. *)
Theorem first_load_screen faults auth bro bk :
  render auth (ui (snd (effect_currentUser faults auth (mkWorld initial_component bro bk))))
         initial_forms
  = match currentUser auth, getDocs_error faults with
    | None, _ => PleaseLogIn
    | Some _, Some _ => TreePage NoMembersYet None None
    | Some _, None =>
        render auth (mkComponent (member_of_doc <$> familyMembers bk) None false None false)
               initial_forms
    end.
Proof.
  rewrite effect_currentUser_fetchMembers.
  destruct (currentUser auth) as [u|] eqn:Hu.
  - destruct (getDocs_error faults) as [e|] eqn:He.
    + rewrite (fetchMembers_failure_members _ _ _ _ _ Hu He).
      unfold render. simpl. by rewrite Hu.
    + by rewrite (fetchMembers_success _ _ _ _ Hu He).
  - rewrite (fetchMembers_no_user _ _ _ Hu). unfold render. simpl. by rewrite Hu.
Qed.

(** With no overlay in the way and a user logged in, the empty state is
    shown exactly when every member has a non-empty [parentId]: a
    collection without a parentless member is shown as if it had no member
    at all. *)
Theorem render_no_members_yet auth c f u :
  deleteSuccess c = false →
  deletingMember c = None →
  loading c = false →
  currentUser auth = Some u →
  (∃ modal form, render auth c f = TreePage NoMembersYet modal form)
  ↔ ∀ m, m ∈ members c → truthy (parentId m).
Proof.
  intros Hs Hd Hl Hu. unfold render. rewrite Hs, Hd, Hl, Hu.
  rewrite <- buildTree_nil_iff. split.
  - intros (modal & form & Heq). case_bool_decide as Hlen.
    + by apply nil_length_inv.
    + discriminate.
  - intros ->. simpl. eauto.
Qed.

Lemma render_no_members_yet_witness :
  (∃ modal form,
     render admin (mkComponent mutual None false None false) initial_forms
     = TreePage NoMembersYet modal form)
  ↔ ∀ m, m ∈ members (mkComponent mutual None false None false) → truthy (parentId m).
Proof.
  apply (render_no_members_yet admin (mkComponent mutual None false None false)
           initial_forms "u0"); reflexivity.
Defined.

Lemma renderTreeNode_below t level :
  Forall (λ v, isRoot v = false) (view_below (renderTreeNode t level)).
Proof.
  revert level. induction t as [m cs s IH] using TreeNode_forall_ind. intros level.
  simpl. apply Forall_concat, Forall_fmap, Forall_fmap.
  eapply Forall_impl; [exact IH|]. intros c Hc. simpl.
  constructor; [by destruct c|apply Hc].
Qed.

(** Only the roots of the forest are drawn as roots: every drawing at the
    top carries the [isRoot] flag, and no drawing below the top does. *)
Theorem render_forest_isRoot (ts : list TreeNode) :
  Forall (λ v, isRoot v = true ∧ Forall (λ u, isRoot u = false) (view_below v))
         (map (λ root, renderTreeNode root 0) ts).
Proof.
  apply Forall_fmap, Forall_forall. intros t _. simpl.
  split; [by destruct t|apply renderTreeNode_below].
Qed.

Lemma renderTreeNode_cards t level :
  view_cards (renderTreeNode t level)
  = concat (map (λ n, member n :: option_list (spouse n)) (tree_nodes t)).
Proof.
  revert level. induction t as [m cs s IH] using TreeNode_forall_ind. intros level.
  simpl. do 2 f_equal.
  induction IH as [|c cs Hc _ IHcs]; [done|].
  simpl. rewrite Hc, IHcs. by rewrite map_app, concat_app.
Qed.

Lemma resolve_spouse_elem ms m s : resolve_spouse ms m = Some s → s ∈ ms.
Proof.
  unfold resolve_spouse. destruct (spouseId m) as [| |i]; [done|done|].
  case_decide; [done|]. rewrite memberMap_lookup. intros Hs.
  apply last_Some in Hs as [l' Hl'].
  assert (s ∈ filter (λ m, id m = i) ms) as Hin
    by (rewrite Hl'; apply elem_of_app; right; apply list_elem_of_here).
  apply list_elem_of_filter in Hin. tauto.
Qed.

(** The cards of the drawn forest are, node by node in pre-order, the card
    of the member followed by the card of its spouse when it has one; and
    every card shows a member of the collection. *)
Theorem render_forest_cards (ms : list FamilyMember) :
  concat (map view_cards (map (λ root, renderTreeNode root 0) (buildTree ms)))
  = concat (map (λ n, member n :: option_list (spouse n)) (forest_nodes (buildTree ms)))
  ∧ Forall (λ m, m ∈ ms)
           (concat (map view_cards (map (λ root, renderTreeNode root 0) (buildTree ms)))).
Proof.
  assert (concat (map view_cards (map (λ root, renderTreeNode root 0) (buildTree ms)))
          = concat (map (λ n, member n :: option_list (spouse n))
                        (forest_nodes (buildTree ms)))) as Heq.
  { induction (buildTree ms) as [|t ts IH]; [done|].
    simpl. rewrite IH, renderTreeNode_cards, forest_nodes_cons.
    by rewrite map_app, concat_app. }
  split; [exact Heq|]. rewrite Heq.
  apply Forall_concat, Forall_fmap.
  eapply Forall_impl; [apply (buildTree_linked ms)|].
  intros n (Hm & Hsp & _). simpl. constructor; [done|].
  destruct (spouse n) as [s|] eqn:Hs; simpl; [|constructor].
  constructor; [|constructor]. symmetry in Hsp. by apply resolve_spouse_elem in Hsp.
Qed.

(** ** A refetch that fails after a deletion *)

Lemma run_timer_ui faults auth t w :
  ui (snd (run_timer faults auth t w))
  = mkComponent (members (ui (snd (fetchMembers faults auth w))))
                (selectedMember (ui (snd (fetchMembers faults auth w))))
                (loading (ui (snd (fetchMembers faults auth w))))
                (deletingMember (ui (snd (fetchMembers faults auth w))))
                false.
Proof.
  destruct t. unfold run_timer, mbind, M_bind.
  pose proof (fetchMembers_returns faults auth w) as Hr.
  destruct (fetchMembers faults auth w) as [[[]|e] w']; simpl in *; done.
Qed.

(** When the store deletes the record but the scheduled refetch fails, the
    in-memory collection is the one from before the deletion: the success
    overlay goes away and the deleted member is still in the collection the
    tree is built from, although its record has left the store. *)
Theorem delete_then_failed_refetch rt faults auth w memberId target u e :
  List.find (λ m, bool_decide (id m = memberId)) (members (ui w)) = Some target →
  canDelete auth target = true →
  hasChildren (members (ui w)) memberId = false →
  deleteDoc_error faults memberId = None →
  getDocs_error faults = Some e →
  currentUser auth = Some u →
  members (ui (snd (run_timer faults auth RefetchAfterDelete
                      (snd (handleDeleteMember rt faults auth memberId w)))))
  = members (ui w)
  ∧ target ∈ members (ui (snd (run_timer faults auth RefetchAfterDelete
                                 (snd (handleDeleteMember rt faults auth memberId w)))))
  ∧ deleteSuccess (ui (snd (run_timer faults auth RefetchAfterDelete
                              (snd (handleDeleteMember rt faults auth memberId w)))))
    = false
  ∧ familyMembers (backend (snd (run_timer faults auth RefetchAfterDelete
                                   (snd (handleDeleteMember rt faults auth memberId w)))))
    = filter (λ d, doc_id d ≠ memberId) (familyMembers (backend w)).
Proof.
  intros Hfind Hcan Hkids Hok Hget Hu.
  rewrite (handleDeleteMember_effects _ _ _ _ _ _ Hfind Hcan Hkids).
  destruct (delete_effects_success rt faults (members (ui w)) target memberId w Hok)
    as (log & cs & st & -> & _).
  rewrite run_timer_ui, (fetchMembers_failure_members _ _ _ _ _ Hu Hget).
  rewrite (proj1 (run_timer_keeps_records _ _ _ _)). simpl.
  repeat split; auto.
  apply find_some in Hfind as [Hin _]. by apply list_elem_of_In.
Qed.

Lemma delete_then_failed_refetch_witness :
  members (ui (snd (run_timer query_down admin RefetchAfterDelete
                      (snd (handleDeleteMember sample_runtime query_down admin "ann"
                              (world_of [ann_doc] []))))))
  = members (ui (world_of [ann_doc] []))
  ∧ member_of_doc ann_doc
    ∈ members (ui (snd (run_timer query_down admin RefetchAfterDelete
                          (snd (handleDeleteMember sample_runtime query_down admin "ann"
                                  (world_of [ann_doc] []))))))
  ∧ deleteSuccess (ui (snd (run_timer query_down admin RefetchAfterDelete
                              (snd (handleDeleteMember sample_runtime query_down admin "ann"
                                      (world_of [ann_doc] []))))))
    = false
  ∧ familyMembers (backend (snd (run_timer query_down admin RefetchAfterDelete
                                   (snd (handleDeleteMember sample_runtime query_down admin
                                           "ann" (world_of [ann_doc] []))))))
    = filter (λ d, doc_id d ≠ "ann") (familyMembers (backend (world_of [ann_doc] []))).
Proof.
  apply (delete_then_failed_refetch sample_runtime query_down admin
           (world_of [ann_doc] []) "ann" (member_of_doc ann_doc) "u0" "unavailable");
    reflexivity.
Defined.

(** ** The depth of the forest *)

Lemma max_list_le (l : list nat) (n : nat) : Forall (λ x, x ≤ n) l → max_list l ≤ n.
Proof. induction 1 as [|x l Hx _ IH]; simpl; lia. Qed.

Lemma buildNode_depth ms (fuel : nat) m p t p' :
  buildNode ms fuel m p = Some (t, p') → tree_depth t ≤ fuel.
Proof.
  revert m p t p'. induction fuel as [|fuel IH]; intros m p t p' Ht; [done|].
  apply buildNode_children in Ht. destruct t as [m' cs s]. simpl in *.
  apply le_n_S, max_list_le, Forall_fmap.
  eapply map_st_Forall; [|exact Ht].
  intros c q y q' _ Hy. unfold compose. eapply IH. exact Hy.
Qed.

(** No tree of the forest has more levels than the collection has members,
    whatever the references between them. *)
Theorem buildTree_depth_bound (ms : list FamilyMember) :
  Forall (λ t, tree_depth t ≤ length ms) (buildTree ms).
Proof.
  assert (is_Some (map_st (λ r q, buildNode ms (length ms) r ({[id r]} ∪ q))
                          (root_members ms) ∅)) as [[ts q] Hts].
  { assert (∀ l q, (∀ r, r ∈ l → r ∈ ms) →
              is_Some (map_st (λ r q, buildNode ms (length ms) r ({[id r]} ∪ q)) l q))
      as Hloop.
    { induction l as [|r l IHl]; intros q Hl; simpl; [eauto|].
      destruct (buildNode_returns ms (length ms) r ({[id r]} ∪ q)) as [[t q1] Ht].
      { pose proof (size_idset_le ms).
        pose proof (size_difference_lt (idset ms) ∅ ({[id r]} ∪ q) (id r)) as Hlt.
        rewrite (difference_empty_L (idset ms)) in Hlt.
        assert (size (idset ms ∖ ({[id r]} ∪ q)) < size (idset ms)); [|lia].
        apply Hlt.
        - apply idset_elem, Hl, list_elem_of_here.
        - apply not_elem_of_empty.
        - apply union_mono_l, empty_subseteq. }
      rewrite Ht. destruct (IHl q1) as [[ts' q2] ->]; [|eauto].
      intros r' Hr'. by apply Hl, list_elem_of_further. }
    apply Hloop. intros r Hr. apply root_members_spec in Hr. tauto. }
  assert (buildTree_fuel ms (length ms) = Some ts) as Hfuel
    by (unfold buildTree_fuel; by rewrite Hts).
  apply (buildTree_fuel_mono ms _ (S (length ms))) in Hfuel; [|lia].
  rewrite (buildTree_fuel_enough ms (S (length ms))) in Hfuel by lia.
  injection Hfuel as ->.
  eapply map_st_Forall; [|exact Hts].
  intros r q' y q'' _ Hy. simpl. eapply buildNode_depth. exact Hy.
Qed.

(** ** The authorization check *)

Lemma snoc_ne_self {A : Type} (l : list A) (x : A) : l ≠ l ++ [x].
Proof.
  intros Heq. apply (f_equal length) in Heq. rewrite length_app in Heq.
  simpl in Heq. lia.
Qed.

(** C6: with the target found, the handler passes the authorization check
    exactly when the identity is flagged as administrator or its uid equals
    the target's [createdBy], and the two sides are told apart by what the
    run does.  A run that is denied raises the permission notification and
    nothing else: no request to the stores, no change of state.  A run that
    is allowed never raises it: it goes on to the referential check, which
    either raises the children notification and nothing else, or, for a
    member without children, sends the deletion of the record to the store
    after the requests of the asset cleanup. *)
Theorem handleDeleteMember_authorization rt faults auth w memberId target :
  List.find (λ m, bool_decide (id m = memberId)) (members (ui w)) = Some target →
  (spec_authorized auth target ↔
     alerts (browser (snd (handleDeleteMember rt faults auth memberId w)))
     ≠ alerts (browser w) ++ [permission_denied_msg])
  ∧ (¬ spec_authorized auth target →
       handleDeleteMember rt faults auth memberId w
       = (Ret tt, mkWorld (ui w)
                          (mkBrowser (alerts (browser w) ++ [permission_denied_msg])
                                     (console (browser w)) (timers (browser w)))
                          (backend w)))
  ∧ (spec_authorized auth target →
     hasChildren (members (ui w)) memberId = true →
       handleDeleteMember rt faults auth memberId w
       = (Ret tt, mkWorld (ui w)
                          (mkBrowser (alerts (browser w) ++ [has_children_msg])
                                     (console (browser w)) (timers (browser w)))
                          (backend w)))
  ∧ (spec_authorized auth target →
     hasChildren (members (ui w)) memberId = false →
       ∃ cs, calls (backend (snd (handleDeleteMember rt faults auth memberId w)))
             = calls (backend w) ++ cs ++ [DeleteDoc memberId]
             ∧ Forall (λ c, ∃ p, c = DeleteObject p) cs).
Proof.
  intros Hfind.
  assert (¬ spec_authorized auth target →
          handleDeleteMember rt faults auth memberId w
          = (Ret tt, mkWorld (ui w)
                             (mkBrowser (alerts (browser w) ++ [permission_denied_msg])
                                        (console (browser w)) (timers (browser w)))
                             (backend w))) as Hdenied.
  { intros Ha. rewrite <- canDelete_authorized in Ha. apply not_true_is_false in Ha.
    by rewrite (handleDeleteMember_found _ _ _ _ _ _ Hfind), Ha. }
  assert (spec_authorized auth target →
          hasChildren (members (ui w)) memberId = true →
          handleDeleteMember rt faults auth memberId w
          = (Ret tt, mkWorld (ui w)
                             (mkBrowser (alerts (browser w) ++ [has_children_msg])
                                        (console (browser w)) (timers (browser w)))
                             (backend w))) as Hkids.
  { intros Ha Hk. apply canDelete_authorized in Ha.
    rewrite (handleDeleteMember_found _ _ _ _ _ _ Hfind), Ha. simpl.
    unfold delete_authorized. by rewrite Hk. }
  split; [|split; [exact Hdenied|split; [exact Hkids|]]].
  - split.
    + intros Ha. destruct (hasChildren (members (ui w)) memberId) eqn:Hk.
      * rewrite (Hkids Ha eq_refl). simpl. intros Heq.
        apply app_inv_head in Heq. discriminate.
      * rewrite (handleDeleteMember_effects _ _ _ _ _ _ Hfind
                   (proj2 (canDelete_authorized _ _) Ha) Hk).
        destruct (deleteDoc_error faults memberId) as [e|] eqn:He.
        -- destruct (delete_effects_failure rt faults (members (ui w)) target memberId w e He)
             as (log & cs & st & -> & _). simpl. intros Heq.
           apply app_inv_head in Heq. discriminate.
        -- destruct (delete_effects_success rt faults (members (ui w)) target memberId w He)
             as (log & cs & st & -> & _). simpl. apply snoc_ne_self.
    + intros Hne. destruct (canDelete auth target) eqn:Hcan.
      * by apply canDelete_authorized.
      * exfalso. apply Hne. rewrite Hdenied; [done|].
        rewrite <- canDelete_authorized. by rewrite Hcan.
  - intros Ha Hk.
    rewrite (handleDeleteMember_effects _ _ _ _ _ _ Hfind
               (proj2 (canDelete_authorized _ _) Ha) Hk).
    destruct (deleteDoc_error faults memberId) as [e|] eqn:He.
    + destruct (delete_effects_failure rt faults (members (ui w)) target memberId w e He)
        as (log & cs & st & -> & Hcs & _). simpl. eauto.
    + destruct (delete_effects_success rt faults (members (ui w)) target memberId w He)
        as (log & cs & st & -> & Hcs & _). simpl. eauto.
Qed.

Lemma handleDeleteMember_authorization_witness :
  (spec_authorized admin (member_of_doc ann_doc) ↔
     alerts (browser (snd (handleDeleteMember sample_runtime no_faults admin "ann"
                             (world_of [ann_doc] ["images/ann.jpg"]))))
     ≠ alerts (browser (world_of [ann_doc] ["images/ann.jpg"])) ++ [permission_denied_msg])
  ∧ (¬ spec_authorized admin (member_of_doc ann_doc) →
       handleDeleteMember sample_runtime no_faults admin "ann"
                          (world_of [ann_doc] ["images/ann.jpg"])
       = (Ret tt, mkWorld (ui (world_of [ann_doc] ["images/ann.jpg"]))
                          (mkBrowser (alerts (browser (world_of [ann_doc] ["images/ann.jpg"]))
                                      ++ [permission_denied_msg])
                                     (console (browser (world_of [ann_doc] ["images/ann.jpg"])))
                                     (timers (browser (world_of [ann_doc] ["images/ann.jpg"]))))
                          (backend (world_of [ann_doc] ["images/ann.jpg"]))))
  ∧ (spec_authorized admin (member_of_doc ann_doc) →
     hasChildren (members (ui (world_of [ann_doc] ["images/ann.jpg"]))) "ann" = true →
       handleDeleteMember sample_runtime no_faults admin "ann"
                          (world_of [ann_doc] ["images/ann.jpg"])
       = (Ret tt, mkWorld (ui (world_of [ann_doc] ["images/ann.jpg"]))
                          (mkBrowser (alerts (browser (world_of [ann_doc] ["images/ann.jpg"]))
                                      ++ [has_children_msg])
                                     (console (browser (world_of [ann_doc] ["images/ann.jpg"])))
                                     (timers (browser (world_of [ann_doc] ["images/ann.jpg"]))))
                          (backend (world_of [ann_doc] ["images/ann.jpg"]))))
  ∧ (spec_authorized admin (member_of_doc ann_doc) →
     hasChildren (members (ui (world_of [ann_doc] ["images/ann.jpg"]))) "ann" = false →
       ∃ cs, calls (backend (snd (handleDeleteMember sample_runtime no_faults admin "ann"
                                    (world_of [ann_doc] ["images/ann.jpg"]))))
             = calls (backend (world_of [ann_doc] ["images/ann.jpg"]))
               ++ cs ++ [DeleteDoc "ann"]
             ∧ Forall (λ c, ∃ p, c = DeleteObject p) cs).
Proof.
  apply (handleDeleteMember_authorization sample_runtime no_faults admin
           (world_of [ann_doc] ["images/ann.jpg"]) "ann" (member_of_doc ann_doc)).
  reflexivity.
Defined.

(** The two sides on one record: the administrator's run sends the deletion
    and raises nothing, the other user's run raises the permission
    notification and sends nothing. *)
Example authorization_allowed_and_denied :
  spec_authorized admin (member_of_doc ann_doc)
  ∧ calls (backend (snd (handleDeleteMember sample_runtime no_faults admin "ann"
                           (world_of [ann_doc] []))))
    = [DeleteDoc "ann"]
  ∧ alerts (browser (snd (handleDeleteMember sample_runtime no_faults admin "ann"
                            (world_of [ann_doc] []))))
    = []
  ∧ ¬ spec_authorized stranger (member_of_doc ann_doc)
  ∧ calls (backend (snd (handleDeleteMember sample_runtime no_faults stranger "ann"
                           (world_of [ann_doc] []))))
    = []
  ∧ alerts (browser (snd (handleDeleteMember sample_runtime no_faults stranger "ann"
                            (world_of [ann_doc] []))))
    = [permission_denied_msg].
Proof.
  split; [left; by exists (mkUserData (Str "u0") true)|].
  split; [reflexivity|]. split; [reflexivity|].
  split; [|split; reflexivity].
  intros [(u & [= <-] & Hadm)|Heq]; discriminate.
Qed.
